(** * A shallow embedding of the WAV exercise (`_exercice_version_prof.py`)

    The Python module synthesises sine waves, interleaves channels,
    converts samples to 16-bit PCM bytes and back, and builds the 44-byte
    RIFF/WAVE header.  This file embeds those functions and proves (or
    refutes) the properties the specification states about them.

    Modelling conventions:
    - a Python [int] is a [Z]; a Python [list] is a [list];
    - a Python [bytes] object is a [list byte];
    - a Python [float] is an IEEE 754 binary64 value, taken from the
      standard library's executable specification [SpecFloat] with
      [prec = 53] and [emax = 1024]; multiplication and division are the
      correctly rounded operations of that specification;
    - a raised exception is a value [Raise e] of the result type [res];
    - [struct] formats without a prefix use the byte order of the host,
      which the model takes as a parameter ([little] on x86 and ARM);
    - [math.sin] is CPython's wrapper around the C library's [sin], which
      is a parameter as well. *)

From Stdlib Require Import ZArith QArith Qround Qabs Qpower Lia Lqa Floats.SpecFloat Strings.String.
From coqutil Require Import Byte Word.LittleEndianList.
From stdpp Require Import base list.
From Stdlib Require Reals Qreals Machin Lra.

(** ** Channel interleaving: [merge_channels] and [separate_channels] *)

Module Channels.
Section Channels.
Context {A : Type}.

(** One round of [zip]'s [__next__]: ask every iterator, in order, for
    its next item; the round fails as soon as one of them is exhausted. *)
Fixpoint heads (its : list (list A)) : option (list A) :=
  match its with
  | [] => Some []
  | it :: rest =>
      match it with
      | [] => None
      | x :: _ => cons x <$> heads rest
      end
  end.

Fixpoint zip_rounds (fuel : nat) (its : list (list A)) : list (list A) :=
  match fuel with
  | O => []
  | S fuel' =>
      match heads its with
      | None => []
      | Some tuple => tuple :: zip_rounds fuel' (tail <$> its)
      end
  end.

(** [zip( *channels)].  With no argument at all [zip()] is empty; otherwise
    the first iterator bounds the number of rounds, so its length is
    fuel enough (see [zip_rounds_fuel]). *)
Definition zip_star (its : list (list A)) : list (list A) :=
  match its with
  | [] => []
  | it :: _ => zip_rounds (length it) its
  end.

(** [[sample for samples in zip( *channels) for sample in samples]] *)
Definition merge_channels (channels : list (list A)) : list A :=
  concat (zip_star channels).

(** Number of items of the extended slice [s[start::step]] of a sequence
    of length [len] ([step > 0], [start >= 0]). *)
Definition slice_length (len start step : nat) : nat :=
  if decide (start < len) then (len - start - 1) `div` step + 1 else 0.

(** [s[start::step]]: the items of index [start + j*step], in order. *)
Definition slice_from_step (s : list A) (start step : nat) : list A :=
  omap (λ j, s !! (start + j * step)) (seq 0 (slice_length (length s) start step)).

(** [range(n)] for a Python integer [n] (empty when [n <= 0]). *)
Definition range (n : Z) : list nat := seq 0 (Z.to_nat n).

(** [[samples[i::num_channels] for i in range(num_channels)]] *)
Definition separate_channels (samples : list A) (num_channels : Z) : list (list A) :=
  (λ i, slice_from_step samples i (Z.to_nat num_channels)) <$> range num_channels.

End Channels.
End Channels.


(** ** Exceptions *)

(** The exceptions the modelled code can raise.  [struct.error] carries
    the reason, as its message does in CPython. *)
Inductive struct_reason :=
| BadArgCount      (* pack expected n items for packing (got m) *)
| OutOfRange       (* 'h' format requires -32768 <= number <= 32767, ... *)
| BadArgType       (* required argument is not an integer / a bytes object *)
| BadBufferSize (expected : nat). (* unpack requires a buffer of n bytes *)

Inductive exn :=
| struct_error (why : struct_reason)
| ValueError          (* cannot convert float NaN to integer *)
| OverflowError       (* cannot convert float infinity to integer, ... *)
| ZeroDivisionError
| TypeError.

Inductive res (A : Type) :=
| Ok (a : A)
| Raise (e : exn).
Arguments Ok {A} a.
Arguments Raise {A} e.

Definition res_bind {A B} (m : res A) (k : A → res B) : res B :=
  match m with
  | Ok a => k a
  | Raise e => Raise e
  end.

Notation "x ← m ;;; k" := (res_bind m (λ x, k))
  (at level 20, m at level 100, k at level 200, right associativity, only parsing).

(** Evaluate [f] on the items from left to right; the first exception wins. *)
Fixpoint res_map {A B} (f : A → res B) (l : list A) : res (list B) :=
  match l with
  | [] => Ok []
  | x :: l' => y ← f x ;;; ys ← res_map f l' ;;; Ok (y :: ys)
  end.

(** ** Python numbers *)

Module PyFloat.

(** A Python [float] is an IEEE 754 binary64 number. *)
Definition prec : Z := 53.
Definition emax : Z := 1024.
Definition float : Type := spec_float.

Definition fmul : float → float → float := SFmul prec emax.
Definition fdiv : float → float → float := SFdiv prec emax.

(** [float(z)]: the nearest binary64 number (exact when [|z| <= 2^53]);
    integers too large for a float raise [OverflowError]. *)
Definition float_of_int (z : Z) : res float :=
  match binary_normalize prec emax z 0 false with
  | S754_infinity _ => Raise OverflowError
  | f => Ok f
  end.

(** [x * n] for a float [x] and an int [n]: [n] is converted first. *)
Definition fmul_int (x : float) (n : Z) : res float :=
  y ← float_of_int n ;;; Ok (fmul x y).

Definition imul_float (n : Z) (x : float) : res float :=
  y ← float_of_int n ;;; Ok (fmul y x).

(** [a / b] for two ints: the correctly rounded quotient. *)
Definition int_truediv (a b : Z) : res float :=
  match a, b with
  | _, Z0 => Raise ZeroDivisionError
  | Z0, _ => Ok (S754_zero (b <? 0)%Z)
  | _, _ =>
      match fdiv (S754_finite (a <? 0)%Z (Z.to_pos (Z.abs a)) 0)
                 (S754_finite (b <? 0)%Z (Z.to_pos (Z.abs b)) 0) with
      | S754_infinity _ => Raise OverflowError
      | f => Ok f
      end
  end.

(** [int(x)]: truncation toward zero; NaN and the infinities raise. *)
Definition int_of_float (x : float) : res Z :=
  match x with
  | S754_nan => Raise ValueError
  | S754_infinity _ => Raise OverflowError
  | S754_zero _ => Ok 0%Z
  | S754_finite s m e => Ok (cond_Zopp s (Z.shiftl (Z.pos m) e))
  end.

(** The rational number a finite float stands for (0 for NaN and the
    infinities, which have none). *)
Definition SF2Q (x : float) : Q :=
  match x with
  | S754_finite s m e =>
      let q := (inject_Z (Z.pos m) * Qpower 2 e)%Q in
      if s then (- q)%Q else q
  | _ => 0%Q
  end.

Definition is_finite (x : float) : bool :=
  match x with
  | S754_zero _ | S754_finite _ _ _ => true
  | _ => false
  end.

Definition is_nan (x : float) : bool :=
  match x with
  | S754_nan => true
  | _ => false
  end.

Definition is_infinite (x : float) : bool :=
  match x with
  | S754_infinity _ => true
  | _ => false
  end.

(** A well-formed binary64 number: canonical mantissa and exponent. *)
Definition valid (x : float) : bool := valid_binary prec emax x.

End PyFloat.

(** ** The [struct] module *)

Module Struct.

Inductive endianness := little | big.

(** Byte order, size and alignment of a format string: ["@"] (the default,
    used when the string has no prefix) is the host's, ["<"] is
    little-endian with standard sizes and no padding.  The host's byte
    order ([sys.byteorder]) is a parameter of the model; a C [short] has 2
    bytes and an [unsigned int] 4 on every host CPython supports. *)
Inductive mode :=
| native (host : endianness)
| little_endian.

(** The format characters the program uses, with their repeat counts
    expanded (["4s"] is one item, ["3h"] is three). *)
Inductive item :=
| fmt_s (n : nat)   (* bytes of length n *)
| fmt_h             (* short *)
| fmt_H             (* unsigned short *)
| fmt_I.            (* unsigned int *)

Inductive value :=
| VInt (z : Z)
| VBytes (b : list byte).

Definition item_size (f : item) : nat :=
  match f with
  | fmt_s n => n
  | fmt_h | fmt_H => 2
  | fmt_I => 4
  end.

Definition item_align (m : mode) (f : item) : nat :=
  match m, f with
  | native _, (fmt_h | fmt_H) => 2
  | native _, fmt_I => 4
  | _, _ => 1
  end.

Definition order_of (m : mode) : endianness :=
  match m with
  | native host => host
  | little_endian => little
  end.

(** Bytes of padding before an item of alignment [align] at [offset]. *)
Definition padding (offset align : nat) : nat :=
  (align - offset `mod` align) `mod` align.

Fixpoint size_from (m : mode) (offset : nat) (fmt : list item) : nat :=
  match fmt with
  | [] => offset
  | f :: fmt' =>
      size_from m (offset + padding offset (item_align m f) + item_size f) fmt'
  end.

(** [struct.calcsize] *)
Definition calcsize (m : mode) (fmt : list item) : nat := size_from m 0 fmt.

Definition encode_int (o : endianness) (size : nat) (z : Z) : list byte :=
  match o with
  | little => le_split size z
  | big => rev (le_split size z)
  end.

Definition decode_unsigned (o : endianness) (b : list byte) : Z :=
  match o with
  | little => le_combine b
  | big => le_combine (rev b)
  end.

Definition decode_signed (o : endianness) (b : list byte) : Z :=
  let u := decode_unsigned o b in
  if (u <? 2 ^ (8 * Z.of_nat (length b) - 1))%Z then u
  else (u - 2 ^ (8 * Z.of_nat (length b)))%Z.

Definition in_range (lo hi z : Z) : bool := (lo <=? z)%Z && (z <=? hi)%Z.

Definition pack_item (o : endianness) (f : item) (v : value) : res (list byte) :=
  match f, v with
  | fmt_s n, VBytes b => Ok (take n b ++ replicate (n - length b) Byte.x00)
  | fmt_h, VInt z =>
      if in_range (-32768) 32767 z then Ok (encode_int o 2 z)
      else Raise (struct_error OutOfRange)
  | fmt_H, VInt z =>
      if in_range 0 65535 z then Ok (encode_int o 2 z)
      else Raise (struct_error OutOfRange)
  | fmt_I, VInt z =>
      if in_range 0 4294967295 z then Ok (encode_int o 4 z)
      else Raise (struct_error OutOfRange)
  | _, _ => Raise (struct_error BadArgType)
  end.

Fixpoint pack_from (m : mode) (offset : nat) (fmt : list item) (vals : list value)
  : res (list byte) :=
  match fmt, vals with
  | f :: fmt', v :: vals' =>
      let pad := padding offset (item_align m f) in
      b ← pack_item (order_of m) f v ;;;
      bs ← pack_from m (offset + pad + item_size f) fmt' vals' ;;;
      Ok (replicate pad Byte.x00 ++ b ++ bs)
  | _, _ => Ok []
  end.

(** [struct.pack(fmt, *vals)] / [Struct(fmt).pack( *vals)] *)
Definition pack (m : mode) (fmt : list item) (vals : list value) : res (list byte) :=
  if decide (length vals = length fmt) then pack_from m 0 fmt vals
  else Raise (struct_error BadArgCount).

Definition unpack_item (o : endianness) (f : item) (b : list byte) : value :=
  match f with
  | fmt_s _ => VBytes b
  | fmt_h => VInt (decode_signed o b)
  | fmt_H | fmt_I => VInt (decode_unsigned o b)
  end.

Fixpoint unpack_from (m : mode) (offset : nat) (fmt : list item) (buf : list byte)
  : list value :=
  match fmt with
  | [] => []
  | f :: fmt' =>
      let start := offset + padding offset (item_align m f) in
      unpack_item (order_of m) f (take (item_size f) (drop start buf))
      :: unpack_from m (start + item_size f) fmt' buf
  end.

(** [Struct(fmt).unpack(buf)]: the buffer must have exactly the size of
    the format. *)
Definition unpack (m : mode) (fmt : list item) (buf : list byte) : res (list value) :=
  if decide (length buf = calcsize m fmt) then Ok (unpack_from m 0 fmt buf)
  else Raise (struct_error (BadBufferSize (calcsize m fmt))).

End Struct.

(** ** The program *)

Module Wave.
Import PyFloat Struct.

Definition SAMPLING_FREQ : Z := 44100.
Definition SAMPLE_BITS : Z := 16.
Definition SAMPLE_WIDTH : Z := SAMPLE_BITS `div` 8.
Definition MAX_SAMPLE_VALUE : Z := 2 ^ (SAMPLE_BITS - 1) - 1.

(** The struct formats of the sub-headers: ["4sI 4s"], ["4sI HHIIHH"], ["4sI"]. *)
Definition RIFF_HEADER_STRUCT : list item := [fmt_s 4; fmt_I; fmt_s 4].
Definition FORMAT_HEADER_STRUCT : list item :=
  [fmt_s 4; fmt_I; fmt_H; fmt_H; fmt_I; fmt_I; fmt_H; fmt_H].
Definition DATA_HEADER_STRUCT : list item := [fmt_s 4; fmt_I].
(** ["<" + RIFF_HEADER_STRUCT + FORMAT_HEADER_STRUCT + DATA_HEADER_STRUCT] *)
Definition WAVE_FILE_HEADERS_STRUCT : mode * list item :=
  (little_endian, RIFF_HEADER_STRUCT ++ FORMAT_HEADER_STRUCT ++ DATA_HEADER_STRUCT).

Record WaveHeader := {
  riff : list byte;
  file_size : Z;
  wave : list byte;
  fmt : list byte;
  fmt_size : Z;
  wav_type : Z;
  num_channels : Z;
  sampling_freq : Z;
  bytes_per_second : Z;
  block_align : Z;
  sample_bits : Z;
  data : list byte;
  data_size : Z
}.

(** The fields of the named tuple, in order ([*headers]). *)
Definition header_values (h : WaveHeader) : list value :=
  [VBytes (riff h); VInt (file_size h); VBytes (wave h);
   VBytes (fmt h); VInt (fmt_size h); VInt (wav_type h); VInt (num_channels h);
   VInt (sampling_freq h); VInt (bytes_per_second h); VInt (block_align h);
   VInt (sample_bits h);
   VBytes (data h); VInt (data_size h)].

Definition bytes_of_string (s : string) : list byte := String.list_byte_of_string s.

Section Host.
(** [sys.byteorder] of the machine the program runs on. *)
Variable host : endianness.

Definition create_headers (num_samples : Z) : WaveHeader :=
  let headers_size := Z.of_nat (calcsize (fst WAVE_FILE_HEADERS_STRUCT) (snd WAVE_FILE_HEADERS_STRUCT)) in
  let data_size := (num_samples * SAMPLE_WIDTH)%Z in
  let riff_file_size :=
    (Z.of_nat (calcsize (fst WAVE_FILE_HEADERS_STRUCT) (snd WAVE_FILE_HEADERS_STRUCT)) - 8 + data_size)%Z in
  {| riff := bytes_of_string "RIFF"%string;
     file_size := riff_file_size;
     wave := bytes_of_string "WAVE"%string;
     fmt := bytes_of_string "fmt "%string;
     fmt_size := (Z.of_nat (calcsize (native host) FORMAT_HEADER_STRUCT) - 8)%Z;
     wav_type := 1;
     num_channels := 2;
     sampling_freq := SAMPLING_FREQ;
     bytes_per_second := (SAMPLING_FREQ * SAMPLE_WIDTH)%Z;
     block_align := SAMPLE_WIDTH;
     sample_bits := SAMPLE_BITS;
     data := bytes_of_string "data"%string;
     data_size := data_size |}.

(** [struct.Struct(f"{len(samples)}h")]: native mode, [n] shorts. *)
Definition shorts (n : nat) : mode * list item := (native host, replicate n fmt_h).

Definition convert_to_bytes (samples : list float) : res (list byte) :=
  let packer := shorts (length samples) in
  ints ← res_map (λ sample, x ← fmul_int sample MAX_SAMPLE_VALUE ;;; int_of_float x) samples ;;;
  pack (fst packer) (snd packer) (VInt <$> ints).

Definition encode_wave_data (samples : list float) : res (list byte * list byte) :=
  let headers := create_headers (Z.of_nat (length samples)) in
  headers_bytes ← pack (fst WAVE_FILE_HEADERS_STRUCT) (snd WAVE_FILE_HEADERS_STRUCT)
                       (header_values headers) ;;;
  data_bytes ← convert_to_bytes samples ;;;
  Ok (headers_bytes, data_bytes).

(** [int_sample / MAX_SAMPLE_VALUE] on an unpacked value. *)
Definition truediv_value (v : value) (d : Z) : res float :=
  match v with
  | VInt z => int_truediv z d
  | VBytes _ => Raise TypeError
  end.

Definition convert_to_samples (sample_bytes : list byte) : res (list float) :=
  let unpacker := shorts (Z.to_nat (Z.of_nat (length sample_bytes) `div` SAMPLE_WIDTH)) in
  int_samples ← unpack (fst unpacker) (snd unpacker) sample_bytes ;;;
  res_map (λ int_sample, truediv_value int_sample MAX_SAMPLE_VALUE) int_samples.

End Host.

(** [math.pi], the binary64 number nearest to pi (0x400921FB54442D18). *)
Definition math_pi : float := S754_finite false 7074237752028440 (-51).

(** The angle [freq * (i / SAMPLING_FREQ * 2*math.pi)] of sample [i]: the
    division first, then the products from left to right. *)
Definition angle (freq : float) (i : Z) : res float :=
  t ← int_truediv i SAMPLING_FREQ ;;;
  t2 ← fmul_int t 2 ;;;
  Ok (fmul freq (fmul t2 math_pi)).

Section Sine.
(** [sin] of the C library, which [math.sin] calls; the model takes it as
    given. *)
Variable sin : float → float.

(** [math.sin]: CPython calls the C function and raises [ValueError]
    ("math domain error") when the result is NaN for an argument that is
    not NaN, or infinite for a finite argument.  So [math.sin] of an
    infinity raises on every C library that follows Annex F of the C
    standard, where [sin] of an infinity is NaN. *)
Definition math_sin (x : float) : res float :=
  let r := sin x in
  if is_nan r && negb (is_nan x) then Raise ValueError
  else if is_infinite r && is_finite x then Raise ValueError
  else Ok r.

(** The generator [sine_gen], run to exhaustion. *)
Definition sine_gen (freq amplitude duration_seconds : float) : res (list float) :=
  span ← imul_float SAMPLING_FREQ duration_seconds ;;;
  n ← int_of_float span ;;;
  res_map (λ i : nat,
             x ← angle freq (Z.of_nat i) ;;;
             y ← math_sin x ;;;
             Ok (fmul amplitude y))
          (Channels.range n).

End Sine.

End Wave.

(** ** Mathematical notions used in the statements *)

Module Reference.

(** Rounding a rational toward zero. *)
Definition round_toward_zero (q : Q) : Z :=
  if Qle_bool 0 q then Qfloor q else Qceiling q.

(** The two bytes of the 16-bit two's-complement code of [v], low byte
    first. *)
Definition int16_le (v : Z) : list byte :=
  [byte.of_Z (v `mod` 256); byte.of_Z ((v `div` 256) `mod` 256)].

(** The integer a low byte and a high byte stand for, read as a 16-bit
    two's-complement number. *)
Definition int16_of (lo hi : byte) : Z :=
  let u := (byte.unsigned lo + 256 * byte.unsigned hi)%Z in
  if decide (u < 32768)%Z then u else (u - 65536)%Z.







End Reference.


(** ** Auxiliary definitions for the proofs *)

Module Checks.
Import PyFloat.

(** [float(MAX_SAMPLE_VALUE)] *)
Definition MAX_SAMPLE_VALUE_f : float := S754_finite false 9006924376834048 (-38).

(** [float(SAMPLING_FREQ)] *)
Definition SAMPLING_FREQ_f : float := S754_finite false 6061057848115200 (-37).

(** [int(sample * MAX_SAMPLE_VALUE)] *)
Definition scale (sample : float) : res Z :=
  int_of_float (fmul sample MAX_SAMPLE_VALUE_f).

(** The floats [1.0], [-1.0] and [2.0]. *)
Definition one : float := S754_finite false 4503599627370496 (-52).
Definition minus_one : float := S754_finite true 4503599627370496 (-52).
Definition two : float := S754_finite false 4503599627370496 (-51).



(** Half a unit in the last place of [k / 32767], for a nonzero short [k]. *)
Definition truediv_error_bound (k : Z) : Q :=
  if (k =? 0)%Z then 0%Q else Qpower 2 (Zdigits2 k - 69).

(** [k / 32767] is a well-formed finite float within
    [truediv_error_bound k] of the exact quotient. *)
Definition truediv_close (k : Z) : bool :=
  match int_truediv k 32767 with
  | Ok r =>
      is_finite r && valid r
      && Qle_bool (Qabs (SF2Q r - inject_Z k / 32767)) (truediv_error_bound k)
  | Raise _ => false
  end.

(** [p] holds of the [2 ^ bits] integers from [base] on. *)
Fixpoint all_in_block (bits : nat) (base : Z) (p : Z → bool) : bool :=
  match bits with
  | O => p base
  | S b => all_in_block b base p && all_in_block b (base + 2 ^ Z.of_nat b)%Z p
  end.

End Checks.

(** ** Invariant of the right shift of [SpecFloat] *)

Module Rounding.
Local Open Scope Z_scope.

(** What a shift record knows about [m0] after [j] one-bit shifts: the
    quotient, whether the remainder reaches half, and whether it lies
    strictly between the marks. *)
Definition shr_inv (m0 j : Z) (mrs : shr_record) : Prop :=
  ∃ rem, m0 = shr_m mrs * 2 ^ j + rem ∧ 0 ≤ rem < 2 ^ j ∧ 0 ≤ shr_m mrs
         ∧ (shr_r mrs = true ↔ 2 ^ j ≤ 2 * rem)
         ∧ (shr_s mrs = true ↔ rem ≠ 0 ∧ 2 * rem ≠ 2 ^ j).



(** [x] approximates [X] with a relative error of at most [eps]. *)
Definition rel (x X eps : Q) : Prop := (Qabs (x - X) <= eps * Qabs X)%Q.


End Rounding.

(** ** Reading a file back, and the volume change of [main] *)

Module Decode.
Import PyFloat Struct Wave.

(** [struct.unpack_from(fmt, buffer)] at offset 0: the buffer may be longer
    than the format but not shorter ("unpack_from requires a buffer of at
    least n bytes"). *)
Definition unpack_from_buffer (m : mode) (fmt : list item) (buf : list byte)
  : res (list value) :=
  if decide (calcsize m fmt ≤ length buf) then Ok (unpack_from m 0 fmt buf)
  else Raise (struct_error (BadBufferSize (calcsize m fmt))).

(** [WaveHeader( *values)]: thirteen positional arguments. *)
Definition header_of_values (vals : list value) : res WaveHeader :=
  match vals with
  | [VBytes riff; VInt file_size; VBytes wave; VBytes fmt; VInt fmt_size;
     VInt wav_type; VInt num_channels; VInt sampling_freq; VInt bytes_per_second;
     VInt block_align; VInt sample_bits; VBytes data; VInt data_size] =>
      Ok {| riff := riff; file_size := file_size; wave := wave; fmt := fmt;
            fmt_size := fmt_size; wav_type := wav_type; num_channels := num_channels;
            sampling_freq := sampling_freq; bytes_per_second := bytes_per_second;
            block_align := block_align; sample_bits := sample_bits; data := data;
            data_size := data_size |}
  | _ => Raise TypeError
  end.

(** The float literal [0.2] (0x3FC999999999999A). *)
Definition zero_point_two : float := S754_finite false 7205759403792794 (-55).

Section Host.
Variable host : endianness.

Definition decode_wave_data (file_bytes : list byte) : res (WaveHeader * list float) :=
  vals ← unpack_from_buffer (fst WAVE_FILE_HEADERS_STRUCT) (snd WAVE_FILE_HEADERS_STRUCT)
                            file_bytes ;;;
  headers ← header_of_values vals ;;;
  let data_start := calcsize (fst WAVE_FILE_HEADERS_STRUCT) (snd WAVE_FILE_HEADERS_STRUCT) in
  samples ← convert_to_samples host (drop data_start file_bytes) ;;;
  Ok (headers, samples).

(** The last block of [main], as a function from the bytes read from
    [data/stravinsky.wav] to the header bytes and data bytes written to
    [output/stravinsky_mod.wav]. *)
Definition main_stravinsky_mod (file_bytes : list byte) : res (list byte * list byte) :=
  decoded ← decode_wave_data file_bytes ;;;
  let samples := (λ s, fmul s zero_point_two) <$> snd decoded in
  encode_wave_data host samples.

End Host.

End Decode.

(** ** More auxiliary definitions for the proofs *)

Module Checks2.
Import PyFloat Struct Wave Checks Decode.

(** The fields of a 44-byte header, by offset. *)
Definition header_at (h : list byte) : WaveHeader :=
  {| riff := take 4 h;
     file_size := decode_unsigned little (take 4 (drop 4 h));
     wave := take 4 (drop 8 h);
     fmt := take 4 (drop 12 h);
     fmt_size := decode_unsigned little (take 4 (drop 16 h));
     wav_type := decode_unsigned little (take 2 (drop 20 h));
     num_channels := decode_unsigned little (take 2 (drop 22 h));
     sampling_freq := decode_unsigned little (take 4 (drop 24 h));
     bytes_per_second := decode_unsigned little (take 4 (drop 28 h));
     block_align := decode_unsigned little (take 2 (drop 32 h));
     sample_bits := decode_unsigned little (take 2 (drop 34 h));
     data := take 4 (drop 36 h);
     data_size := decode_unsigned little (take 4 (drop 40 h)) |}.

(** The shorts a payload holds, read pair by pair in the host's order. *)
Definition payload_shorts (host : endianness) (b : list byte) : list Z :=
  (λ i, decode_signed host (take 2 (drop (2 * i) b))) <$> seq 0 (length b `div` 2).

(** [k'] is [k / 5] rounded toward zero, or one unit nearer to zero when
    [k] is a multiple of 5. *)
Definition fifth_or_below (k k' : Z) : bool :=
  ((k' =? Z.quot k 5) || ((Z.rem k 5 =? 0) && (k' =? Z.quot k 5 - Z.sgn k)))%Z.

(** The short [k] decodes to a float that encodes to [k] again, and that
    encodes to a fifth of [k] once multiplied by [0.2]. *)
Definition short_ok (k : Z) : bool :=
  match int_truediv k 32767 with
  | Ok r =>
      match scale r, scale (fmul r zero_point_two) with
      | Ok k1, Ok k2 => (k1 =? k)%Z && fifth_or_below k k2
      | _, _ => false
      end
  | Raise _ => false
  end.

End Checks2.

(** ** A series for pi *)

Module PiSeries.




End PiSeries.

(** * Properties *)

(** ** Interleaving *)

Module ChannelFacts.
Import Channels.
Section ChannelFacts.
Context {A : Type}.
Implicit Types (s buffer ch it : list A) (its rest channels : list (list A)).

Example merge_doc : merge_channels [[11; 12; 13]; [21; 22; 23]] = [11; 21; 12; 22; 13; 23].
Proof. reflexivity. Qed.

Example separate_doc :
  separate_channels [11; 21; 12; 22; 13; 23] 2 = [[11; 12; 13]; [21; 22; 23]].
Proof. reflexivity. Qed.

(** The fuel of [zip_star] never cuts the zip short: any larger fuel
    produces the same rounds. *)
Lemma zip_rounds_fuel it rest fuel :
  length it ≤ fuel →
  zip_rounds fuel (it :: rest) = zip_rounds (length it) (it :: rest).
Proof.
  revert rest fuel. induction it as [|x it IH]; intros rest fuel Hle.
  - destruct fuel; reflexivity.
  - destruct fuel as [|fuel]; [simpl in Hle; lia|].
    simpl. destruct (heads rest) as [t|]; simpl; [|reflexivity].
    f_equal. apply IH. simpl in Hle. lia.
Qed.

Lemma heads_full its n :
  Forall (λ it, length it = S n) its →
  ∃ tuple, heads its = Some tuple ∧ length tuple = length its ∧
           ∀ c ch, its !! c = Some ch → tuple !! c = ch !! 0.
Proof.
  induction 1 as [|it its Hit _ (tuple & Htu & Hlen & Hlk)].
  - exists []. split_and!; [done..|]. intros c ch Hc. by destruct c.
  - destruct it as [|x it]; [done|]. exists (x :: tuple). simpl. rewrite Htu.
    split_and!; [done|by rewrite Hlen|].
    intros [|c] ch Hc; simpl in *; [by simplify_eq|by apply Hlk].
Qed.

(** Where the merged buffer keeps sample [t] of channel [c]. *)
Lemma zip_rounds_lookup n its c ch t :
  Forall (λ it, length it = n) its →
  its !! c = Some ch →
  concat (zip_rounds n its) !! (c + t * length its) = ch !! t.
Proof.
  revert its ch t. induction n as [|n IH]; intros its ch t Hall Hc.
  - simpl. rewrite Forall_lookup in Hall. specialize (Hall _ _ Hc).
    destruct ch; [|done]. by rewrite lookup_nil.
  - destruct (heads_full its n Hall) as (tuple & Htu & Hlen & Hlk).
    simpl. rewrite Htu. simpl.
    assert (c < length its) as Hlt by (by eapply lookup_lt_Some).
    destruct t as [|t].
    + rewrite Nat.add_0_r, lookup_app_l by lia. by eapply Hlk.
    + rewrite lookup_app_r by lia.
      replace (c + S t * length its - length tuple) with (c + t * length (tail <$> its))
        by (rewrite length_fmap; lia).
      rewrite (IH (tail <$> its) (tail ch)).
      * by destruct ch.
      * apply Forall_fmap. eapply Forall_impl; [exact Hall|].
        intros it Hit. simpl. destruct it; simpl in *; lia.
      * by rewrite list_lookup_fmap, Hc.
Qed.

Lemma merge_channels_lookup n channels c ch t :
  Forall (λ it, length it = n) channels →
  channels !! c = Some ch →
  merge_channels channels !! (c + t * length channels) = ch !! t.
Proof.
  intros Hall Hc. unfold merge_channels, zip_star.
  destruct channels as [|it rest]; [done|].
  assert (length it = n) as -> by (by inversion Hall).
  by apply zip_rounds_lookup.
Qed.

(** *** Extended slices *)

Lemma slice_length_lt len start step j :
  0 < step → j < slice_length len start step ↔ start + j * step < len.
Proof.
  intros Hstep. unfold slice_length. case_decide as Hs; [|lia].
  assert (j ≤ (len - start - 1) `div` step ↔ j * step ≤ len - start - 1) as Hdiv.
  { split; intros H.
    - etrans; [apply Nat.mul_le_mono_r, H|].
      rewrite Nat.mul_comm. apply Nat.Div0.mul_div_le.
    - apply Nat.div_le_lower_bound; lia. }
  lia.
Qed.

Lemma omap_total_lookup {B} (f : nat → option B) n j :
  (∀ i, i < n → is_Some (f i)) →
  omap f (seq 0 n) !! j = if decide (j < n) then f j else None.
Proof.
  intros Htot. induction n as [|n IH].
  - by case_decide; [lia|].
  - rewrite seq_S, omap_app. simpl.
    destruct (Htot n ltac:(lia)) as [y Hy]. rewrite Hy.
    assert (length (omap f (seq 0 n)) = n) as Hlen.
    { clear -Htot. induction n as [|n IH]; [done|].
      rewrite seq_S, omap_app, length_app, IH by (intros; apply Htot; lia).
      simpl. destruct (Htot n ltac:(lia)) as [y ->]. simpl. lia. }
    destruct (decide (j < n)) as [Hj|Hj].
    + rewrite lookup_app_l by lia. rewrite IH by (intros; apply Htot; lia).
      rewrite !decide_True by lia. done.
    + rewrite lookup_app_r by lia. rewrite Hlen.
      destruct (decide (j = n)) as [->|Hne].
      * rewrite Nat.sub_diag, decide_True by lia. by rewrite Hy.
      * rewrite decide_False by lia.
        destruct (j - n) as [|k] eqn:Hk; [lia|done].
Qed.

(** [s[start::step]] holds, at index [j], the item of [s] at
    [start + j*step] (and nothing once that index leaves [s]). *)
Lemma slice_from_step_lookup s start step j :
  0 < step → slice_from_step s start step !! j = s !! (start + j * step).
Proof.
  intros Hstep. unfold slice_from_step. rewrite omap_total_lookup.
  - case_decide as Hj.
    + done.
    + symmetry. apply lookup_ge_None.
      rewrite slice_length_lt in Hj by done. lia.
  - intros i Hi. apply lookup_lt_is_Some. by apply slice_length_lt.
Qed.

Lemma slice_from_step_length s start step :
  0 < step → length (slice_from_step s start step) = slice_length (length s) start step.
Proof.
  intros Hstep.
  set (n := slice_length (length s) start step).
  destruct (decide (length (slice_from_step s start step) = n)) as [|Hne]; [done|exfalso].
  destruct (decide (length (slice_from_step s start step) < n)) as [Hlt|Hge].
  - pose proof (slice_from_step_lookup s start step (length (slice_from_step s start step)) Hstep) as H.
    rewrite (lookup_ge_None_2 _ _ (Nat.le_refl _)) in H.
    symmetry in H. apply lookup_ge_None in H.
    apply (slice_length_lt (length s) start step) in Hlt; [lia|done].
  - pose proof (slice_from_step_lookup s start step n Hstep) as H.
    destruct (lookup_lt_is_Some_2 (slice_from_step s start step) n ltac:(lia)) as [x Hx].
    rewrite Hx in H. symmetry in H. apply lookup_lt_Some in H.
    apply (slice_length_lt (length s) start step) in H; [|done]. unfold n in *. lia.
Qed.

Lemma separate_channels_length buffer (num_channels : Z) :
  length (separate_channels buffer num_channels) = Z.to_nat num_channels.
Proof. unfold separate_channels, range. by rewrite length_fmap, length_seq. Qed.

Lemma separate_channels_lookup buffer (num_channels : Z) c :
  c < Z.to_nat num_channels →
  separate_channels buffer num_channels !! c
  = Some (slice_from_step buffer c (Z.to_nat num_channels)).
Proof.
  intros Hc. unfold separate_channels, range.
  rewrite list_lookup_fmap, lookup_seq_lt by done. done.
Qed.

(** Length of channel [c]: the buffer length divided by the channel count,
    plus one for the first [len mod n] channels. *)
Lemma slice_length_channel len c n :
  c < n →
  slice_length len c n = len `div` n + (if decide (c < len `mod` n) then 1 else 0).
Proof.
  intros Hc. unfold slice_length.
  pose proof (Nat.div_mod_eq len n) as Hdm.
  pose proof (Nat.mod_upper_bound len n ltac:(lia)) as Hr.
  set (q := len `div` n) in *. set (r := len `mod` n) in *.
  case_decide as Hlt; case_decide as Hcr; try lia.
  - replace (len - c - 1) with (r - c - 1 + q * n) by lia.
    rewrite Nat.div_add by lia. rewrite Nat.div_small by lia. lia.
  - destruct q as [|q]; [lia|].
    replace (len - c - 1) with (n + r - c - 1 + q * n) by lia.
    rewrite Nat.div_add by lia. rewrite Nat.div_small by lia. lia.
  - assert (q = 0) by nia. lia.
Qed.

Lemma sum_channel_lengths q r n :
  r ≤ n →
  sum_list_with (λ c, q + (if decide (c < r) then 1 else 0)) (seq 0 n) = n * q + r.
Proof.
  intros Hr.
  assert (∀ m, sum_list_with (λ c, q + (if decide (c < r) then 1 else 0)) (seq 0 m)
               = m * q + m `min` r) as H.
  { induction m as [|m IH]; [done|].
    rewrite seq_S, sum_list_with_app, IH. cbn [sum_list_with Nat.add].
    case_decide; lia. }
  rewrite H. lia.
Qed.

Lemma sum_list_with_fmap_ext {B C} (f : C → nat) (g : B → C) (h : B → nat) (l : list B) :
  (∀ x, x ∈ l → f (g x) = h x) →
  sum_list_with f (g <$> l) = sum_list_with h l.
Proof.
  induction l as [|x l IH]; intros Hext; [done|].
  rewrite fmap_cons. cbn [sum_list_with]. rewrite Hext by apply list_elem_of_here.
  f_equal. apply IH. intros y Hy. apply Hext. by apply list_elem_of_further.
Qed.

End ChannelFacts.
End ChannelFacts.

Module ChannelClaims.
Import Channels ChannelFacts.

(** C4.  Merging equal-length channels and separating the merged buffer
    into as many channels gives the channels back:
    [separate_channels(merge_channels(channels), len(channels)) == channels]. *)
Theorem separate_merge_inverse {A} (channels : list (list A)) (n : nat) :
  Forall (λ ch, length ch = n) channels →
  separate_channels (merge_channels channels) (Z.of_nat (length channels)) = channels.
Proof.
  intros Hall. apply list_eq. intros c.
  destruct (channels !! c) as [ch|] eqn:Hc.
  - assert (c < length channels) as Hlt by (by eapply lookup_lt_Some).
    rewrite separate_channels_lookup by lia. f_equal.
    apply list_eq. intros t.
    rewrite slice_from_step_lookup, Nat2Z.id by lia.
    by eapply merge_channels_lookup.
  - apply lookup_ge_None. rewrite separate_channels_length, Nat2Z.id.
    by apply lookup_ge_None.
Qed.

Lemma separate_merge_inverse_witness :
  Forall (λ ch : list Z, length ch = 3) [[11; 12; 13]; [21; 22; 23]]%Z ∧
  separate_channels (merge_channels [[11; 12; 13]; [21; 22; 23]]%Z) (Z.of_nat 2)
  = [[11; 12; 13]; [21; 22; 23]]%Z.
Proof.
  split.
  - repeat constructor.
  - apply (separate_merge_inverse [[11; 12; 13]; [21; 22; 23]]%Z 3). repeat constructor.
Defined.

(** C10.  For a positive channel count [separate_channels] returns exactly
    that many channels; channel [c] holds the buffer items of index
    [c], [c + n], [c + 2n], ...; every buffer index lands in exactly one
    (channel, slot) pair; the channel lengths add up to the buffer length;
    and the first [len mod n] channels are one item longer than the others. *)
Theorem separate_channels_partition {A} (buffer : list A) (num_channels : Z) :
  (0 < num_channels)%Z →
  let n := Z.to_nat num_channels in
  let chans := separate_channels buffer num_channels in
  length chans = n
  ∧ (∀ c, c < n → ∃ ch, chans !! c = Some ch
        ∧ (∀ j, ch !! j = buffer !! (c + j * n))
        ∧ length ch = length buffer `div` n
                      + (if decide (c < length buffer `mod` n) then 1 else 0))
  ∧ (∀ i, i < length buffer →
        ∃ c j, (c < n ∧ (chans !! c ≫= (.!! j)) = buffer !! i ∧ c + j * n = i)
             ∧ ∀ c' j', c' < n → c' + j' * n = i → c' = c ∧ j' = j)
  ∧ sum_list_with length chans = length buffer.
Proof.
  intros Hpos n chans.
  assert (0 < n) as Hn by (unfold n; lia).
  assert (∀ c, c < n → chans !! c = Some (slice_from_step buffer c n)) as Hlk.
  { intros c Hc. by apply separate_channels_lookup. }
  split_and!.
  - apply separate_channels_length.
  - intros c Hc. eexists. split_and!; [by apply Hlk| |].
    + intros j. by apply slice_from_step_lookup.
    + rewrite slice_from_step_length by done. by apply slice_length_channel.
  - intros i Hi. exists (i `mod` n), (i `div` n).
    pose proof (Nat.div_mod_eq i n) as Hdm.
    pose proof (Nat.mod_upper_bound i n ltac:(lia)) as Hr.
    split.
    + split_and!; [done| |lia].
      rewrite Hlk by done. simpl. rewrite slice_from_step_lookup by done.
      f_equal. lia.
    + intros c' j' Hc' Hij.
      assert (j' = i `div` n) as ->.
      { apply (Nat.div_unique i n j' c'); lia. }
      split; [lia|done].
  - unfold chans, separate_channels, range. fold n.
    erewrite (sum_list_with_fmap_ext length _ (λ c, length buffer `div` n
                + (if decide (c < length buffer `mod` n) then 1 else 0))).
    + rewrite sum_channel_lengths.
      * pose proof (Nat.div_mod_eq (length buffer) n). lia.
      * pose proof (Nat.mod_upper_bound (length buffer) n ltac:(lia)). lia.
    + intros c Hc%elem_of_seq.
      rewrite slice_from_step_length by done. apply slice_length_channel. lia.
Qed.

Lemma separate_channels_partition_witness :
  (0 < 2)%Z ∧ length (separate_channels [1; 2; 3]%Z 2) = 2.
Proof.
  split; [lia|].
  apply (separate_channels_partition [1; 2; 3]%Z 2). lia.
Defined.




End ChannelClaims.

(** ** The header *)

Module HeaderClaims.
Import PyFloat Struct Wave.

Example calcsize_headers :
  calcsize (fst WAVE_FILE_HEADERS_STRUCT) (snd WAVE_FILE_HEADERS_STRUCT) = 44.
Proof. reflexivity. Qed.

(** C5 (what the code does).  [create_headers] stores [SAMPLE_WIDTH = 2] in
    the block-align field although it declares two channels of two bytes
    each, for which the claim (and the WAV format) asks for
    [num_channels * bytes_per_sample = 4]; the byte rate is
    [sampling_freq * block_align] with that too small block. *)
Theorem create_headers_block_align (host : endianness) (num_samples : Z) :
  let h := create_headers host num_samples in
  block_align h = 2%Z
  ∧ (num_channels h * SAMPLE_WIDTH)%Z = 4%Z
  ∧ bytes_per_second h = (sampling_freq h * block_align h)%Z
  ∧ bytes_per_second h = 88200%Z.
Proof. by split_and!. Qed.

Lemma le_split_4 z : ∃ a b c d, le_split 4 z = [a; b; c; d].
Proof. by eexists _, _, _, _. Qed.

(** The header bytes, whenever the two size fields fit 32 bits. *)
Lemma pack_headers host (num_samples : Z) :
  pack (fst WAVE_FILE_HEADERS_STRUCT) (snd WAVE_FILE_HEADERS_STRUCT)
       (header_values (create_headers host num_samples))
  = if in_range 0 4294967295 (36 + num_samples * 2)
    then if in_range 0 4294967295 (num_samples * 2)
         then Ok (bytes_of_string "RIFF" ++ le_split 4 (36 + num_samples * 2)
                  ++ bytes_of_string "WAVEfmt " ++ le_split 4 16
                  ++ le_split 2 1 ++ le_split 2 2 ++ le_split 4 44100
                  ++ le_split 4 88200 ++ le_split 2 2 ++ le_split 2 16
                  ++ bytes_of_string "data" ++ le_split 4 (num_samples * 2))
         else Raise (struct_error OutOfRange)
    else Raise (struct_error OutOfRange).
Proof.
  unfold pack. rewrite decide_True by reflexivity.
  assert (create_headers host num_samples
          = {| riff := bytes_of_string "RIFF"; file_size := 36 + num_samples * 2;
               wave := bytes_of_string "WAVE"; fmt := bytes_of_string "fmt ";
               fmt_size := 16; wav_type := 1; num_channels := 2;
               sampling_freq := 44100; bytes_per_second := 88200; block_align := 2;
               sample_bits := 16; data := bytes_of_string "data";
               data_size := num_samples * 2 |}) as ->.
  { by destruct host. }
  generalize (36 + num_samples * 2)%Z. intros fs.
  generalize (num_samples * 2)%Z. intros ds.
  cbn [WAVE_FILE_HEADERS_STRUCT fst snd RIFF_HEADER_STRUCT FORMAT_HEADER_STRUCT
       DATA_HEADER_STRUCT app header_values riff file_size wave fmt
       fmt_size wav_type num_channels sampling_freq bytes_per_second block_align
       sample_bits data data_size pack_from pack_item res_bind order_of encode_int].
  generalize (in_range 0 4294967295 fs) (in_range 0 4294967295 ds).
  destruct (le_split_4 fs) as (a1 & a2 & a3 & a4 & ->).
  destruct (le_split_4 ds) as (b1 & b2 & b3 & b4 & ->).
  intros [] []; reflexivity.
Qed.

(** C9.  Whatever the number of samples, the header announces 2 channels,
    16 bits per sample and 44100 Hz; [encode_wave_data] writes exactly
    these values at offsets 22, 34 and 24 of the header bytes for every
    list of samples it encodes, a single-channel one included. *)
Theorem header_is_always_stereo (host : endianness) :
  (∀ num_samples : Z,
      let h := create_headers host num_samples in
      num_channels h = 2%Z ∧ sample_bits h = 16%Z ∧ sampling_freq h = 44100%Z)
  ∧ (∀ samples headers_bytes data_bytes,
      encode_wave_data host samples = Ok (headers_bytes, data_bytes) →
      length headers_bytes = 44
      ∧ decode_unsigned little (take 2 (drop 22 headers_bytes)) = 2%Z
      ∧ decode_unsigned little (take 2 (drop 34 headers_bytes)) = 16%Z
      ∧ decode_unsigned little (take 4 (drop 24 headers_bytes)) = 44100%Z).
Proof.
  split; [by intros; split_and!|].
  intros samples hb db. unfold encode_wave_data. rewrite pack_headers.
  destruct (in_range _ _ (36 + _)); [|discriminate].
  destruct (in_range _ _ _); [|discriminate].
  cbn [res_bind]. destruct (convert_to_bytes host samples); [|discriminate].
  cbn [res_bind]. intros [= <- <-].
  repeat match goal with
  | |- context [le_split 4 (?a + ?n * 2)%Z] =>
      destruct (le_split_4 (a + n * 2)) as (? & ? & ? & ? & ->)
  | |- context [le_split 4 (Z.of_nat ?n * 2)%Z] =>
      destruct (le_split_4 (Z.of_nat n * 2)) as (? & ? & ? & ? & ->)
  end.
  split_and!; reflexivity.
Qed.

Lemma header_is_always_stereo_witness :
  ∃ hb db,
    encode_wave_data little [S754_finite false 4503599627370496 (-52)] = Ok (hb, db)
    ∧ decode_unsigned little (take 2 (drop 22 hb)) = 2%Z.
Proof.
  eexists _, _. split; [reflexivity|].
  eapply (proj2 (header_is_always_stereo little)
                [S754_finite false 4503599627370496 (-52)]).
  reflexivity.
Defined.

End HeaderClaims.

(** ** Mapping a fallible function over a list *)

Module ResFacts.

Lemma res_map_Ok {A B} (f : A → res B) (l : list A) (ys : list B) :
  res_map f l = Ok ys ↔ Forall2 (λ x y, f x = Ok y) l ys.
Proof.
  revert ys. induction l as [|x l IH]; intros ys; cbn [res_map].
  - split; [intros [= <-]; constructor|]. by inversion 1.
  - destruct (f x) as [y|e] eqn:Hx; cbn [res_bind].
    + destruct (res_map f l) as [ys'|e] eqn:Hl; cbn [res_bind].
      * split.
        -- intros [= <-]. constructor; [done|]. by apply IH.
        -- inversion 1 as [|? y' ? ys'' Hy Hys]; subst.
           apply IH in Hys. congruence.
      * split; [done|]. inversion 1 as [|? y' ? ys'' Hy Hys]; subst.
        apply IH in Hys. congruence.
    + split; [done|]. inversion 1; subst. congruence.
Qed.

Lemma res_map_total {A B} (f : A → res B) (g : A → B) (l : list A) :
  Forall (λ x, f x = Ok (g x)) l → res_map f l = Ok (g <$> l).
Proof.
  intros H. apply res_map_Ok. induction H; constructor; done.
Qed.

Lemma res_map_fmap {A B C} (f : B → res C) (g : A → B) (l : list A) :
  res_map f (g <$> l) = res_map (λ x, f (g x)) l.
Proof. induction l as [|x l IH]; [done|]. rewrite fmap_cons. cbn [res_map]. by rewrite IH. Qed.

Lemma res_map_length {A B} (f : A → res B) (l : list A) (ys : list B) :
  res_map f l = Ok ys → length ys = length l.
Proof.
  revert ys. induction l as [|x l IH]; intros ys; cbn [res_map].
  - by intros [= <-].
  - destruct (f x); cbn [res_bind]; [|done].
    destruct (res_map f l) as [ys'|]; cbn [res_bind]; [|done].
    intros [= <-]. simpl. f_equal. by apply IH.
Qed.


Lemma res_map_all_Ok {A B} (f : A → res B) (l : list A) :
  Forall (λ x, ∃ y, f x = Ok y) l → ∃ ys, res_map f l = Ok ys.
Proof.
  induction 1 as [|x l [y Hy] _ [ys Hys]]; [by exists []|].
  exists (y :: ys). cbn [res_map]. by rewrite Hy, Hys.
Qed.

End ResFacts.

(** ** The [struct] module on arrays of shorts *)

Module StructFacts.
Import Struct Reference.

Lemma padding_even k : padding (2 * k) 2 = 0.
Proof.
  unfold padding. replace (2 * k) with (k * 2) by lia.
  by rewrite Nat.Div0.mod_mul.
Qed.

Lemma calcsize_shorts host n : calcsize (native host) (replicate n fmt_h) = 2 * n.
Proof.
  unfold calcsize.
  assert (∀ k, size_from (native host) (2 * k) (replicate n fmt_h) = 2 * (k + n)) as H.
  { induction n as [|n IH]; intros k; cbn [replicate size_from item_align item_size].
    - f_equal. lia.
    - rewrite padding_even.
      replace (2 * k + 0 + 2) with (2 * (k + 1)) by lia. rewrite IH. lia. }
  apply (H 0).
Qed.

Lemma in_range_spec lo hi z : in_range lo hi z = true ↔ (lo ≤ z ≤ hi)%Z.
Proof. unfold in_range. rewrite andb_true_iff, !Z.leb_le. done. Qed.

(** Packing [n] shorts: either every integer fits and the codes are laid
    side by side, or the first misfit raises [struct.error]. *)
Lemma pack_shorts host (ints : list Z) :
  pack (native host) (replicate (length ints) fmt_h) (VInt <$> ints)
  = if forallb (in_range (-32768) 32767) ints
    then Ok (concat (encode_int host 2 <$> ints))
    else Raise (struct_error OutOfRange).
Proof.
  unfold pack. rewrite length_fmap, length_replicate, decide_True by done.
  assert (∀ k, pack_from (native host) (2 * k) (replicate (length ints) fmt_h) (VInt <$> ints)
               = if forallb (in_range (-32768) 32767) ints
                 then Ok (concat (encode_int host 2 <$> ints))
                 else Raise (struct_error OutOfRange)) as H.
  { induction ints as [|z ints IH]; intros k; [done|].
    cbn [length replicate fmap list_fmap pack_from pack_item item_align item_size forallb
         order_of concat].
    rewrite padding_even.
    destruct (in_range (-32768) 32767 z); cbn [res_bind andb]; [|done].
    replace (2 * k + 0 + 2) with (2 * (k + 1)) by lia.
    rewrite IH. by destruct (forallb _ ints). }
  apply (H 0).
Qed.

Lemma unpack_from_shorts host n k (buf : list byte) :
  unpack_from (native host) (2 * k) (replicate n fmt_h) buf
  = (λ i, VInt (decode_signed host (take 2 (drop (2 * (k + i)) buf)))) <$> seq 0 n.
Proof.
  revert k. induction n as [|n IH]; intros k; [done|].
  cbn [replicate unpack_from item_align item_size order_of unpack_item].
  rewrite padding_even. cbn [seq fmap list_fmap]. f_equal.
  - do 4 f_equal. lia.
  - replace (2 * k + 0 + 2) with (2 * (k + 1)) by lia. rewrite IH.
    rewrite <- fmap_S_seq, <- list_fmap_compose.
    apply list_fmap_ext. intros _ i _. simpl. do 4 f_equal. lia.
Qed.

(** Unpacking [len // 2] shorts: the buffer must hold exactly that many. *)
Lemma unpack_shorts host (buf : list byte) :
  unpack (native host) (replicate (length buf `div` 2) fmt_h) buf
  = if decide (length buf `mod` 2 = 0)
    then Ok ((λ i, VInt (decode_signed host (take 2 (drop (2 * i) buf))))
               <$> seq 0 (length buf `div` 2))
    else Raise (struct_error (BadBufferSize (2 * (length buf `div` 2)))).
Proof.
  unfold unpack. rewrite calcsize_shorts.
  pose proof (Nat.div_mod_eq (length buf) 2) as Hdm.
  case_decide as Hlen; case_decide as Hmod; try lia; [|done].
  f_equal. apply (unpack_from_shorts host _ 0).
Qed.


Lemma le_combine_2 lo hi :
  le_combine [lo; hi] = (byte.unsigned lo + 256 * byte.unsigned hi)%Z.
Proof.
  change (le_combine [lo; hi])
    with (Z.lor (byte.unsigned lo) (Z.shiftl (Z.lor (byte.unsigned hi) (Z.shiftl 0 8)) 8)).
  rewrite Z.shiftl_0_l, Z.lor_0_r.
  pose proof (byte.unsigned_range lo) as Hlo.
  pose proof (byte.unsigned_range hi) as Hhi.
  change (2 ^ 8)%Z with 256%Z in *.
  rewrite Z.shiftl_mul_pow2 by lia. change (2 ^ 8)%Z with 256%Z.
  rewrite <- Z.add_nocarry_lor; [lia|].
  apply Z.bits_inj'. intros i Hi. rewrite Z.land_spec, Z.bits_0.
  destruct (decide (i < 8)%Z).
  - replace (byte.unsigned hi * 256)%Z with (byte.unsigned hi * 2 ^ 8)%Z by lia.
    rewrite Z.mul_pow2_bits_low by lia. apply andb_false_r.
  - rewrite (Z.bits_above_log2 (byte.unsigned lo)); [done|lia|].
    destruct (decide (byte.unsigned lo = 0)%Z) as [->|]; [simpl; lia|].
    apply Z.log2_lt_pow2; [lia|]. eapply Z.lt_le_trans; [apply Hlo|].
    change 256%Z with (2 ^ 8)%Z. apply Z.pow_le_mono_r; lia.
Qed.

(** On a little-endian host the short read back from two bytes is their
    16-bit two's-complement value. *)
Lemma decode_signed_little lo hi : decode_signed little [lo; hi] = int16_of lo hi.
Proof.
  unfold decode_signed, decode_unsigned, int16_of. rewrite le_combine_2.
  change (2 ^ (8 * Z.of_nat (length [lo; hi]) - 1))%Z with 32768%Z.
  change (2 ^ (8 * Z.of_nat (length [lo; hi])))%Z with 65536%Z.
  case_decide; destruct (Z.ltb_spec (byte.unsigned lo + 256 * byte.unsigned hi) 32768); lia.
Qed.

Lemma wrap16 z :
  (-32768 ≤ z ≤ 32767)%Z →
  (if (z `mod` 65536 <? 32768)%Z then z `mod` 65536 else z `mod` 65536 - 65536)%Z = z.
Proof.
  intros Hz. destruct (decide (0 ≤ z)%Z) as [Hpos|Hneg].
  - rewrite Z.mod_small by lia. destruct (Z.ltb_spec z 32768); lia.
  - assert (z `mod` 65536 = z + 65536)%Z as ->.
    { rewrite <- (Z_mod_plus_full z 1 65536). apply Z.mod_small. lia. }
    destruct (Z.ltb_spec (z + 65536) 32768); lia.
Qed.

Lemma decode_encode_short host z :
  (-32768 ≤ z ≤ 32767)%Z → decode_signed host (encode_int host 2 z) = z.
Proof.
  intros Hz. unfold decode_signed.
  assert (decode_unsigned host (encode_int host 2 z) = z `mod` 65536)%Z as ->.
  { destruct host; unfold decode_unsigned, encode_int; rewrite ?rev_involutive;
      by rewrite le_combine_split. }
  assert (length (encode_int host 2 z) = 2) as -> by (by destruct host).
  change (2 ^ (8 * Z.of_nat 2 - 1))%Z with 32768%Z.
  change (2 ^ (8 * Z.of_nat 2))%Z with 65536%Z.
  by apply wrap16.
Qed.

End StructFacts.

(** ** Floats as rationals *)

Module FloatFacts.
Import PyFloat Reference.
Local Open Scope Z_scope.

Lemma Qpow2_inject (e : Z) : 0 ≤ e → (Qpower 2 e == inject_Z (2 ^ e))%Q.
Proof. intros He. by rewrite Zpower_Qpower. Qed.

Lemma Qpow2_inv (k : Z) : 0 ≤ k → (Qpower 2 (- k) == / inject_Z (2 ^ k))%Q.
Proof. intros Hk. by rewrite Qpower_opp, Zpower_Qpower. Qed.

Lemma Qpow2_pos (e : Z) : (0 < Qpower 2 e)%Q.
Proof. by apply Qpower_0_lt. Qed.

Lemma Qpow2_add (a b : Z) : (Qpower 2 (a + b) == Qpower 2 a * Qpower 2 b)%Q.
Proof. by apply Qpower_plus. Qed.

(** A positive mantissa and an exponent, as the integer quotient they
    truncate to. *)
Lemma Qfloor_mantissa (m : positive) (e : Z) :
  Qfloor (inject_Z (Z.pos m) * Qpower 2 e) = Z.shiftl (Z.pos m) e.
Proof.
  destruct (Z.le_gt_cases 0 e) as [He|He].
  - rewrite Qpow2_inject, <- inject_Z_mult, Qfloor_Z by done.
    by rewrite Z.shiftl_mul_pow2.
  - replace e with (- - e) at 1 by lia. rewrite Qpow2_inv by lia.
    change (?a * / ?b)%Q with (a / b)%Q.
    rewrite <- Zdiv_Qdiv. rewrite <- (Z.opp_involutive e) at 2.
    rewrite Z.shiftl_opp_r, Z.shiftr_div_pow2 by lia. done.
Qed.

(** [int(x)] truncates the value of [x] toward zero. *)
Lemma int_of_float_spec (x : float) (z : Z) :
  int_of_float x = Ok z → z = round_toward_zero (SF2Q x).
Proof.
  destruct x as [s|s| |s m e]; cbn [int_of_float SF2Q]; intros [= <-]; try done.
  unfold round_toward_zero.
  pose proof (Qpow2_pos e) as Hp.
  assert (0 < inject_Z (Z.pos m) * Qpower 2 e)%Q as Hq.
  { apply Qmult_lt_0_compat; [done|done]. }
  destruct s; cbn [cond_Zopp].
  - destruct (Qle_bool 0 _) eqn:Hle.
    + apply Qle_bool_iff in Hle. lra.
    + unfold Qceiling. rewrite (Qfloor_comp _ _ (Qopp_involutive _)).
      by rewrite Qfloor_mantissa.
  - destruct (Qle_bool 0 _) eqn:Hle.
    + by rewrite Qfloor_mantissa.
    + assert (Qle_bool 0 (inject_Z (Z.pos m) * Qpower 2 e) = true) as Ht
        by (apply Qle_bool_iff; lra).
      congruence.
Qed.

Lemma int_of_float_finite (x : float) :
  is_finite x = true → ∃ z, int_of_float x = Ok z.
Proof. destruct x; simpl; intros; try done; eauto. Qed.

End FloatFacts.

Module TruedivFacts.
Import PyFloat Reference Checks.
Local Open Scope Z_scope.

Lemma all_in_block_spec bits base p :
  all_in_block bits base p = true →
  ∀ k, base ≤ k < base + 2 ^ Z.of_nat bits → p k = true.
Proof.
  revert base. induction bits as [|b IH]; intros base Hall k Hk.
  - simpl in *. replace k with base by lia. done.
  - cbn [all_in_block] in Hall. apply andb_true_iff in Hall as [H1 H2].
    rewrite Nat2Z.inj_succ, Z.pow_succ_r in Hk by lia.
    destruct (decide (k < base + 2 ^ Z.of_nat b)).
    + apply (IH base); [done|lia].
    + apply (IH (base + 2 ^ Z.of_nat b)); [done|lia].
Qed.

Lemma all_shorts_close : all_in_block 16 (-32768) truediv_close = true.
Proof. vm_compute. reflexivity. Qed.

(** Dividing a short by [MAX_SAMPLE_VALUE] never raises and is accurate to
    half a unit in the last place. *)
Lemma truediv_short (k : Z) :
  -32768 ≤ k ≤ 32767 →
  ∃ r, int_truediv k 32767 = Ok r ∧ is_finite r = true ∧ valid r = true
       ∧ (Qabs (SF2Q r - inject_Z k / 32767) <= truediv_error_bound k)%Q.
Proof.
  intros Hk.
  pose proof (all_in_block_spec _ _ _ all_shorts_close k ltac:(simpl; lia)) as Hc.
  unfold truediv_close in Hc.
  destruct (int_truediv k 32767) as [r|]; [|done].
  exists r. rewrite !andb_true_iff in Hc. destruct Hc as [[? ?] Hle].
  apply Qle_bool_iff in Hle. done.
Qed.

End TruedivFacts.

(** ** Rounding in [SpecFloat] *)

Module RoundFacts.
Import PyFloat Rounding.
Local Open Scope Z_scope.

(** *** Number of binary digits *)

Lemma digits2_pos_bounds (p : positive) :
  2 ^ (Z.pos (digits2_pos p) - 1) ≤ Z.pos p < 2 ^ Z.pos (digits2_pos p).
Proof.
  induction p as [p IH|p IH|]; cbn [digits2_pos]; [| |simpl; lia].
  - rewrite Pos2Z.inj_succ.
    replace (Z.succ (Z.pos (digits2_pos p)) - 1) with (Z.succ (Z.pos (digits2_pos p) - 1)) by lia.
    rewrite !Z.pow_succ_r by lia. lia.
  - rewrite Pos2Z.inj_succ.
    replace (Z.succ (Z.pos (digits2_pos p)) - 1) with (Z.succ (Z.pos (digits2_pos p) - 1)) by lia.
    rewrite !Z.pow_succ_r by lia. lia.
Qed.

Lemma Zdigits2_bounds (m : Z) :
  0 < m → 2 ^ (Zdigits2 m - 1) ≤ m < 2 ^ Zdigits2 m.
Proof. destruct m as [|p|p]; [lia| |lia]. intros _. apply digits2_pos_bounds. Qed.

Lemma Zdigits2_pos (m : Z) : 0 < m → 0 < Zdigits2 m.
Proof. destruct m; simpl; lia. Qed.

(** The number of digits is the only [d] with [2^(d-1) <= m < 2^d]. *)
Lemma Zdigits2_unique (m d : Z) :
  2 ^ (d - 1) ≤ m < 2 ^ d → 0 < m → Zdigits2 m = d.
Proof.
  intros Hd Hm. pose proof (Zdigits2_bounds m Hm) as Hb.
  pose proof (Zdigits2_pos m Hm) as Hp.
  assert (0 < d) as Hdpos.
  { destruct (Z.le_gt_cases d 0) as [Hle|]; [|done].
    assert (2 ^ d ≤ 2 ^ 0) by (apply Z.pow_le_mono_r; lia). simpl in *. lia. }
  destruct (Z.lt_trichotomy (Zdigits2 m) d) as [Hlt|[Heq|Hgt]]; [|done|].
  - assert (2 ^ Zdigits2 m ≤ 2 ^ (d - 1)) by (apply Z.pow_le_mono_r; lia). lia.
  - assert (2 ^ d ≤ 2 ^ (Zdigits2 m - 1)) by (apply Z.pow_le_mono_r; lia). lia.
Qed.

Lemma Zdigits2_shift (m n : Z) :
  0 < m → 0 ≤ n < Zdigits2 m → Zdigits2 (m / 2 ^ n) = Zdigits2 m - n.
Proof.
  intros Hm Hn. pose proof (Zdigits2_bounds m Hm) as Hb.
  assert (0 < 2 ^ n) as Hpow by (apply Z.pow_pos_nonneg; lia).
  assert (2 ^ (Zdigits2 m - 1) = 2 ^ (Zdigits2 m - n - 1) * 2 ^ n) as E1.
  { rewrite <- Z.pow_add_r by lia. f_equal. lia. }
  assert (2 ^ Zdigits2 m = 2 ^ (Zdigits2 m - n) * 2 ^ n) as E2.
  { rewrite <- Z.pow_add_r by lia. f_equal. lia. }
  assert (0 < 2 ^ (Zdigits2 m - n - 1)) by (apply Z.pow_pos_nonneg; lia).
  assert (2 ^ (Zdigits2 m - n - 1) ≤ m / 2 ^ n).
  { apply Z.div_le_lower_bound; lia. }
  assert (m / 2 ^ n < 2 ^ (Zdigits2 m - n)).
  { apply Z.div_lt_upper_bound; lia. }
  apply Zdigits2_unique; lia.
Qed.

(** *** Shifting a mantissa right *)

Lemma shr_inv_init (m0 : Z) : 0 ≤ m0 → shr_inv m0 0 (Build_shr_record m0 false false).
Proof. intros H. exists 0. simpl. split_and!; first [lia|split; [done|lia]]. Qed.

Lemma shr_inv_step (m0 j : Z) (mrs : shr_record) :
  0 ≤ j → shr_inv m0 j mrs → shr_inv m0 (j + 1) (shr_1 mrs).
Proof.
  intros Hj (rem & Hm0 & Hrem & Hm & Hr & Hs).
  assert (0 < 2 ^ j) as Hpow by (apply Z.pow_pos_nonneg; lia).
  assert (2 ^ (j + 1) = 2 * 2 ^ j) as Hpow1 by (rewrite Z.pow_add_r by lia; simpl; lia).
  destruct mrs as [m r s]. cbn [shr_m shr_r shr_s] in *.
  assert ((r || s = true) ↔ rem ≠ 0) as Hrs.
  { rewrite orb_true_iff, Hr, Hs. lia. }
  destruct m as [|[p|p|]|p]; [| | | |lia]; cbn [shr_1];
    [exists rem|exists (rem + 2 ^ j)|exists rem|exists (rem + 2 ^ j)];
    cbn [shr_m shr_r shr_s]; rewrite Hpow1, Hrs;
    split_and!; first [lia|split; [done|lia]|split; [lia|done]].
Qed.

Lemma shr_inv_iter (m0 : Z) (p : positive) (j : Z) (mrs : shr_record) :
  0 ≤ j → shr_inv m0 j mrs → shr_inv m0 (j + Z.pos p) (SpecFloat.iter_pos shr_1 p mrs).
Proof.
  revert j mrs. induction p as [p IH|p IH|]; intros j mrs Hj Hinv; cbn [SpecFloat.iter_pos].
  - replace (j + Z.pos p~1) with (j + 1 + Z.pos p + Z.pos p) by lia.
    apply IH; [lia|]. apply IH; [lia|]. by apply shr_inv_step.
  - replace (j + Z.pos p~0) with (j + Z.pos p + Z.pos p) by lia.
    apply IH; [lia|]. by apply IH.
  - by apply shr_inv_step.
Qed.

(** *** Rounding an exact product to 53 bits *)

Lemma fexp_binary64 (e : Z) : fexp prec emax e = Z.max (e - 53) (-1074).
Proof. reflexivity. Qed.

Lemma shr_fexp_shift (m0 e : Z) :
  let n := fexp prec emax (Zdigits2 m0 + e) - e in
  0 < n → 0 ≤ m0 →
  ∃ mrs, shr_fexp prec emax m0 e loc_Exact = (mrs, e + n) ∧ shr_inv m0 n mrs.
Proof.
  intros n Hn Hm0. unfold shr_fexp, shr. fold n.
  destruct n as [|p|p] eqn:Hp; [lia| |lia].
  eexists. split; [reflexivity|].
  apply (shr_inv_iter m0 p 0); [lia|]. by apply shr_inv_init.
Qed.

Lemma shr_fexp_noshift (m0 e : Z) :
  fexp prec emax (Zdigits2 m0 + e) - e ≤ 0 →
  shr_fexp prec emax m0 e loc_Exact = (Build_shr_record m0 false false, e).
Proof.
  intros Hn. unfold shr_fexp, shr.
  destruct (fexp prec emax (Zdigits2 m0 + e) - e) as [|p|p]; [done|lia|done].
Qed.

(** Rounding to nearest picks one of the two neighbours, at most half a
    step away. *)
Lemma round_nearest_even_inv (m0 n : Z) (mrs : shr_record) :
  0 ≤ n → shr_inv m0 n mrs →
  let m1 := round_nearest_even (shr_m mrs) (loc_of_shr_record mrs) in
  shr_m mrs = m0 / 2 ^ n
  ∧ shr_m mrs ≤ m1 ≤ shr_m mrs + 1
  ∧ - 2 ^ n ≤ 2 * (m0 - m1 * 2 ^ n) ≤ 2 ^ n.
Proof.
  intros Hn (rem & Hm0 & Hrem & Hm & Hr & Hs) m1.
  assert (0 < 2 ^ n) as Hpow by (apply Z.pow_pos_nonneg; lia).
  split.
  { apply (Z.div_unique m0 (2 ^ n) (shr_m mrs) rem); lia. }
  subst m1. destruct mrs as [m r s]. cbn [shr_m shr_r shr_s] in *.
  destruct r, s; cbn [loc_of_shr_record round_nearest_even].
  - assert (2 ^ n ≤ 2 * rem) by (by apply Hr). lia.
  - assert (2 ^ n ≤ 2 * rem) by (by apply Hr).
    assert (¬ (rem ≠ 0 ∧ 2 * rem ≠ 2 ^ n)) by (intros H'; by apply Hs in H').
    destruct (Z.even m); lia.
  - assert (¬ (2 ^ n ≤ 2 * rem)) by (intros H'; by apply Hr in H'). lia.
  - assert (¬ (2 ^ n ≤ 2 * rem)) by (intros H'; by apply Hr in H').
    assert (¬ (rem ≠ 0 ∧ 2 * rem ≠ 2 ^ n)) by (intros H'; by apply Hs in H').
    lia.
Qed.

(** [binary_round_aux] on an exact integer mantissa that has to lose [n]
    bits: the result is finite, its value is [m1 * 2^(e+n)] for an integer
    [m1] next to [m0 / 2^n] and within half a unit of it. *)
Lemma binary_round_aux_exact (sx : bool) (m0 : positive) (e : Z) :
  let n := fexp prec emax (Zdigits2 (Z.pos m0) + e) - e in
  0 < n < Zdigits2 (Z.pos m0) → e + n + 1 ≤ emax - prec →
  ∃ (m1 : Z) (m2 : positive) (e2 : Z),
    binary_round_aux prec emax sx (Z.pos m0) e loc_Exact = S754_finite sx m2 e2
    ∧ e + n ≤ e2
    ∧ Z.pos m2 * 2 ^ (e2 - (e + n)) = m1
    ∧ Z.pos m0 / 2 ^ n ≤ m1 ≤ Z.pos m0 / 2 ^ n + 1
    ∧ - 2 ^ n ≤ 2 * (Z.pos m0 - m1 * 2 ^ n) ≤ 2 ^ n.
Proof.
  intros n Hn Hmax.
  destruct (shr_fexp_shift (Z.pos m0) e) as (mrs & Hshr & Hinv); [fold n; lia|lia|].
  fold n in Hshr, Hinv.
  destruct (round_nearest_even_inv (Z.pos m0) n mrs ltac:(lia) Hinv) as (Hq & Hm1 & Hnear).
  set (m1 := round_nearest_even (shr_m mrs) (loc_of_shr_record mrs)) in *.
  set (d := Zdigits2 (Z.pos m0)) in *.
  assert (0 < 2 ^ n) as Hpow by (apply Z.pow_pos_nonneg; lia).
  pose proof (Zdigits2_bounds (Z.pos m0) ltac:(lia)) as Hd. fold d in Hd.
  assert (2 ^ n ≤ 2 ^ (d - 1)) as Hnd by (apply Z.pow_le_mono_r; lia).
  assert (0 < shr_m mrs) as Hmpos.
  { rewrite Hq. apply Z.div_str_pos. lia. }
  assert (Zdigits2 (shr_m mrs) = d - n) as Hdm.
  { rewrite Hq. apply Zdigits2_shift; [lia|fold d; lia]. }
  assert (fexp prec emax (d + e) = e + n) as Hfexp by (subst n d; lia).
  unfold binary_round_aux. rewrite Hshr. fold m1.
  destruct (Z.le_gt_cases (fexp prec emax (Zdigits2 m1 + (e + n)) - (e + n)) 0) as [Hn2|Hn2].
  - rewrite (shr_fexp_noshift m1 (e + n) Hn2). cbn [shr_m].
    destruct m1 as [|p1|p1] eqn:Hp1; [lia| |lia].
    destruct (Z.leb_spec (e + n) (emax - prec)); [|lia].
    exists (Z.pos p1), p1, (e + n).
    rewrite Z.sub_diag, Z.mul_1_r. split_and!; try done; lia.
  - destruct (shr_fexp_shift m1 (e + n) Hn2 ltac:(lia)) as (mrs2 & Hshr2 & Hinv2).
    rewrite Hshr2.
    assert (Zdigits2 m1 = d - n + 1 ∧ m1 = 2 ^ (d - n)) as [Hdm1 Hm1pow].
    { destruct (decide (m1 = shr_m mrs)) as [Heq|Hne].
      - rewrite Heq, Hdm in Hn2. replace (d - n + (e + n)) with (d + e) in Hn2 by lia. lia.
      - assert (m1 = shr_m mrs + 1) as Hsucc by lia.
        pose proof (Zdigits2_bounds (shr_m mrs) Hmpos) as Hbm. rewrite Hdm in Hbm.
        destruct (decide (m1 < 2 ^ (d - n))) as [Hlt|Hge].
        + assert (Zdigits2 m1 = d - n) as Heq by (apply Zdigits2_unique; lia).
          rewrite Heq in Hn2. replace (d - n + (e + n)) with (d + e) in Hn2 by lia. lia.
        + assert (m1 = 2 ^ (d - n)) as Hpw by lia. split; [|done].
          apply Zdigits2_unique; [|lia].
          replace (d - n + 1 - 1) with (d - n) by lia.
          rewrite Z.pow_add_r by lia. simpl. lia. }
    assert (fexp prec emax (Zdigits2 m1 + (e + n)) - (e + n) = 1) as Hone.
    { rewrite Hdm1 in *. rewrite fexp_binary64 in *. lia. }
    rewrite Hone in *.
    destruct Hinv2 as (rem & Hm1' & Hrem & Hm2 & _ & _).
    assert (2 ^ (d - n) = 2 * 2 ^ (d - n - 1)) as Hsplit.
    { replace (d - n) with (1 + (d - n - 1)) at 1 by lia.
      rewrite Z.pow_add_r by lia. done. }
    assert (0 < 2 ^ (d - n - 1)) by (apply Z.pow_pos_nonneg; lia).
    change (2 ^ 1) with 2 in *.
    destruct (shr_m mrs2) as [|p2|p2] eqn:Hp2; [lia| |lia].
    destruct (Z.leb_spec (e + n + 1) (emax - prec)); [|lia].
    exists m1, p2, (e + n + 1).
    replace (e + n + 1 - (e + n)) with 1 by lia. change (2 ^ 1) with 2.
    split_and!; try done; lia.
Qed.

End RoundFacts.

Module ShapeFacts.
Import PyFloat Rounding RoundFacts Checks.
Local Open Scope Z_scope.

(** *** When [binary_round_aux] stays finite *)

Lemma Zdigits2_nonneg (m : Z) : 0 ≤ Zdigits2 m.
Proof. destruct m; simpl; lia. Qed.

Lemma Zdigits2_le_bound (m d : Z) : 0 ≤ d → 0 ≤ m < 2 ^ d → Zdigits2 m ≤ d.
Proof.
  intros Hd Hm. destruct (decide (m = 0)) as [->|Hne]; [done|].
  pose proof (Zdigits2_bounds m ltac:(lia)) as Hb.
  pose proof (Zdigits2_pos m ltac:(lia)).
  assert (Zdigits2 m - 1 < d); [|lia].
  apply (Z.pow_lt_mono_r_iff 2); lia.
Qed.

Lemma shr_1_m (mrs : shr_record) : 0 ≤ shr_m mrs → shr_m (shr_1 mrs) = shr_m mrs / 2.
Proof.
  destruct mrs as [m r s]. cbn [shr_m]. intros Hm.
  destruct m as [|[p|p|]|p]; cbn [shr_1 shr_m]; try lia; try done.
  - rewrite Pos2Z.inj_xI. apply (Z.div_unique _ _ _ 1); lia.
  - rewrite Pos2Z.inj_xO. apply (Z.div_unique _ _ _ 0); lia.
Qed.

Lemma shr_m_iter (p : positive) (mrs : shr_record) :
  0 ≤ shr_m mrs → shr_m (SpecFloat.iter_pos shr_1 p mrs) = shr_m mrs / 2 ^ Z.pos p.
Proof.
  revert mrs. induction p as [p IH|p IH|]; intros mrs Hm; cbn [SpecFloat.iter_pos].
  - assert (0 ≤ shr_m (shr_1 mrs)) as H1 by (rewrite shr_1_m by done; apply Z.div_pos; lia).
    assert (0 ≤ shr_m (SpecFloat.iter_pos shr_1 p (shr_1 mrs))) as H2.
    { rewrite IH by done. apply Z.div_pos; lia. }
    rewrite IH, IH, shr_1_m by done.
    rewrite !Z.div_div by lia. f_equal.
    rewrite Pos2Z.inj_xI, <- !Z.pow_add_r by lia. change 2 with (2 ^ 1) at 1.
    rewrite <- Z.pow_add_r by lia. f_equal. lia.
  - assert (0 ≤ shr_m (SpecFloat.iter_pos shr_1 p mrs)) as H2.
    { rewrite IH by done. apply Z.div_pos; lia. }
    rewrite IH, IH by done. rewrite Z.div_div by lia. f_equal.
    rewrite Pos2Z.inj_xO, <- Z.pow_add_r by lia. f_equal. lia.
  - by rewrite shr_1_m.
Qed.

(** [shr_fexp] divides the mantissa by a power of two and raises the
    exponent to the canonical one. *)
Lemma shr_fexp_m (m e : Z) (l : location) :
  0 ≤ m →
  let n := Z.max 0 (fexp prec emax (Zdigits2 m + e) - e) in
  shr_m (fst (shr_fexp prec emax m e l)) = m / 2 ^ n
  ∧ snd (shr_fexp prec emax m e l) = e + n.
Proof.
  intros Hm n. unfold shr_fexp, shr. subst n.
  assert (shr_m (shr_record_of_loc m l) = m) as Hrec by (by destruct l as [|[]]).
  destruct (fexp prec emax (Zdigits2 m + e) - e) as [|p|p]; cbn [fst snd].
  - rewrite Hrec. simpl. rewrite Z.div_1_r. lia.
  - rewrite shr_m_iter by lia. rewrite Hrec.
    replace (Z.max 0 (Z.pos p)) with (Z.pos p) by lia. done.
  - rewrite Hrec. replace (Z.max 0 (Z.neg p)) with 0 by lia. simpl.
    rewrite Z.div_1_r. lia.
Qed.

Lemma round_nearest_even_bounds (m : Z) (l : location) :
  m ≤ round_nearest_even m l ≤ m + 1.
Proof. destruct l as [|[]]; cbn [round_nearest_even]; try lia. destruct (Z.even m); lia. Qed.

Lemma Zdigits2_div (m n : Z) :
  0 ≤ m → 0 ≤ n → Zdigits2 (m / 2 ^ n) = Z.max 0 (Zdigits2 m - n).
Proof.
  intros Hm Hn. destruct (decide (m = 0)) as [->|Hne].
  { rewrite Z.div_0_l by (apply Z.pow_nonzero; lia). simpl. lia. }
  destruct (decide (n < Zdigits2 m)) as [Hlt|Hge].
  - rewrite Zdigits2_shift by lia. lia.
  - pose proof (Zdigits2_bounds m ltac:(lia)) as Hb.
    assert (2 ^ Zdigits2 m ≤ 2 ^ n) by (apply Z.pow_le_mono_r; lia).
    rewrite Z.div_small by lia. simpl. lia.
Qed.

Lemma Zdigits2_succ (m : Z) : 0 ≤ m → Zdigits2 (m + 1) ≤ Zdigits2 m + 1.
Proof.
  intros Hm. destruct (decide (m = 0)) as [->|Hne]; [simpl; lia|].
  pose proof (Zdigits2_bounds m ltac:(lia)) as Hb.
  pose proof (Zdigits2_pos m ltac:(lia)).
  apply Zdigits2_le_bound; [lia|]. rewrite Z.pow_add_r by lia. simpl. lia.
Qed.

Lemma Zdigits2_mono (a b : Z) : 0 ≤ a ≤ b → Zdigits2 a ≤ Zdigits2 b.
Proof.
  intros Hab. destruct (decide (b = 0)) as [->|Hne].
  { replace a with 0 by lia. done. }
  pose proof (Zdigits2_bounds b ltac:(lia)) as Hb.
  pose proof (Zdigits2_pos b ltac:(lia)).
  apply Zdigits2_le_bound; lia.
Qed.

(** The shape of every result of [binary_round_aux] on a non-negative
    mantissa: never NaN; an infinity only past the largest exponent; a
    finite result carries the given sign, at most 53 digits and an
    exponent of at most 971. *)
Lemma binary_round_aux_shape (sx : bool) (mx ex : Z) (lx : location) :
  0 ≤ mx →
  match binary_round_aux prec emax sx mx ex lx with
  | S754_nan => False
  | S754_zero s => s = sx
  | S754_infinity s => s = sx ∧ (971 < ex ∨ 1023 < Zdigits2 mx + ex)
  | S754_finite s m e => s = sx ∧ e ≤ 971 ∧ Zdigits2 (Z.pos m) ≤ 53
  end.
Proof.
  intros Hmx. unfold binary_round_aux.
  destruct (shr_fexp_m mx ex lx Hmx) as [Hm1 He1].
  destruct (shr_fexp prec emax mx ex lx) as [mrs1 e1]. cbn [fst snd] in *.
  set (n1 := Z.max 0 (fexp prec emax (Zdigits2 mx + ex) - ex)) in *.
  set (m1 := round_nearest_even (shr_m mrs1) (loc_of_shr_record mrs1)).
  pose proof (round_nearest_even_bounds (shr_m mrs1) (loc_of_shr_record mrs1)) as Hr.
  fold m1 in Hr.
  assert (0 ≤ shr_m mrs1) as Hm1pos by (rewrite Hm1; apply Z.div_pos; lia).
  destruct (shr_fexp_m m1 e1 loc_Exact ltac:(lia)) as [Hm2 He2].
  destruct (shr_fexp prec emax m1 e1 loc_Exact) as [mrs2 e2]. cbn [fst snd] in *.
  set (n2 := Z.max 0 (fexp prec emax (Zdigits2 m1 + e1) - e1)) in *.
  assert (0 ≤ shr_m mrs2) as Hm2pos by (rewrite Hm2; apply Z.div_pos; lia).
  destruct (shr_m mrs2) as [|m|m] eqn:Hmrs2; [done| |lia].
  assert (Zdigits2 (Z.pos m) = Z.max 0 (Zdigits2 m1 - n2)) as Hdm.
  { rewrite Hm2. apply Zdigits2_div; lia. }
  pose proof (Zdigits2_pos (Z.pos m) ltac:(lia)) as Hdmpos.
  assert (Zdigits2 m1 ≤ Zdigits2 (shr_m mrs1) + 1) as Hdm1.
  { etrans; [|apply Zdigits2_succ; lia]. apply Zdigits2_mono. lia. }
  assert (Zdigits2 (shr_m mrs1) = Z.max 0 (Zdigits2 mx - n1)) as Hdmrs1.
  { rewrite Hm1. apply Zdigits2_div; lia. }
  pose proof (Zdigits2_nonneg mx) as Hdmx.
  destruct (Z.leb_spec e2 (emax - prec)) as [Hle|Hgt].
  - split_and!; [done|unfold emax, prec in Hle; lia|].
    subst n2. rewrite fexp_binary64 in *. lia.
  - split; [done|]. unfold emax, prec in Hgt.
    subst n1 n2. rewrite !fexp_binary64 in *. lia.
Qed.


Lemma fmul_sign (x y : float) :
  match fmul x y with
  | S754_finite s _ _ | S754_zero s =>
      match x, y with
      | (S754_finite sx _ _ | S754_zero sx), (S754_finite sy _ _ | S754_zero sy) =>
          s = xorb sx sy
      | _, _ => True
      end
  | _ => True
  end.
Proof.
  unfold fmul, SFmul.
  destruct x as [sx|sx| |sx mx ex], y as [sy|sy| |sy my ey]; try done.
  pose proof (binary_round_aux_shape (xorb sx sy) (Z.pos (mx * my)) (ex + ey) loc_Exact
                ltac:(lia)) as Hs.
  destruct (binary_round_aux prec emax (xorb sx sy) (Z.pos (mx * my)) (ex + ey) loc_Exact);
    [exact Hs|done|done|exact (proj1 Hs)].
Qed.



End ShapeFacts.

(** ** Scaling a sample and dividing it back *)

Module ScaleFacts.
Import PyFloat Rounding RoundFacts Checks.
Local Open Scope Z_scope.

(** The integer heart of the round trip.  [P * 2^-(n+t)] is the exact
    scaled sample, [m1] its mantissa rounded to nearest after dropping [n]
    bits, [k] the integer part of the rounded product.  Then [k] is a
    short, and it misses the exact product by less than one minus the
    error [c] of the later division. *)
Lemma scale_core (P n t m1 : Z) :
  let W := 2 ^ (n + t) in
  let k := m1 / 2 ^ t in
  let c := if k =? 0 then 0 else 32767 * 2 ^ (Zdigits2 k - 69 + n + t) in
  38 ≤ n → 37 ≤ t → 0 < P ≤ 32767 * W → Zdigits2 P - 53 ≤ n →
  P / 2 ^ n ≤ m1 ≤ P / 2 ^ n + 1 → - 2 ^ n ≤ 2 * (P - m1 * 2 ^ n) ≤ 2 ^ n →
  0 ≤ k ≤ 32767 ∧ Z.abs (k * W - P) + c ≤ W.
Proof.
  intros W k c Hn Ht HP HdP Hm1 Hnear.
  set (A := 2 ^ n) in *. set (N := 2 ^ t) in *.
  assert (0 < A) as HA by (apply Z.pow_pos_nonneg; lia).
  assert (2 ^ 37 ≤ N) as HN by (apply Z.pow_le_mono_r; lia).
  assert (W = N * A) as HW by (unfold W, N, A; rewrite Z.pow_add_r by lia; lia).
  pose proof (Z.div_mod m1 N ltac:(lia)) as Hdm. fold k in Hdm.
  pose proof (Z.mod_pos_bound m1 N ltac:(lia)) as Hsig.
  set (σ := m1 `mod` N) in *.
  assert (0 ≤ P / A) as Hq0 by (apply Z.div_pos; lia).
  assert (P / A ≤ 32767 * N) as Hq.
  { apply Z.div_le_upper_bound; [lia|]. rewrite HW in HP. lia. }
  assert (0 ≤ k) as Hk0 by (apply Z.div_pos; lia).
  assert (k < 32768) as Hk1 by (apply Z.div_lt_upper_bound; lia).
  split; [lia|].
  assert (k * W = m1 * A - σ * A) as HkW by (rewrite HW, Hdm at 1; ring).
  assert (0 ≤ σ * A ≤ W - A) as HsA.
  { split; [apply Z.mul_nonneg_nonneg; lia|].
    replace (W - A) with ((N - 1) * A) by (rewrite HW; ring).
    apply Z.mul_le_mono_nonneg_r; lia. }
  assert (A ≤ W) as HAW by lia.
  destruct (Z.eqb_spec k 0) as [Hk|Hk].
  { subst c. destruct (decide (σ = 0)) as [Hs|Hs].
    - rewrite Hs in *. lia.
    - assert (A ≤ σ * A) by (rewrite <- (Z.mul_1_l A) at 1; apply Z.mul_le_mono_nonneg_r; lia).
      lia. }
  assert (1 ≤ k) as Hk2 by lia.
  pose proof (Zdigits2_bounds k ltac:(lia)) as Hdk.
  pose proof (Zdigits2_pos k ltac:(lia)) as Hdk0.
  set (dk := Zdigits2 k) in *.
  assert (dk ≤ 15) as Hdk15.
  { assert (dk - 1 < 15); [|lia].
    apply (Z.pow_lt_mono_r_iff 2); [lia|lia|]. change (2 ^ 15) with 32768. lia. }
  destruct (decide (σ = 0)) as [Hs|Hs].
  - (* the rounded product is the integer [k] itself *)
    assert (c * 2 ^ 39 ≤ 32767 * 2 ^ (n + t - 15)) as Hc.
    { subst c. rewrite <- Z.mul_assoc, <- Z.pow_add_r by lia.
      apply Z.mul_le_mono_nonneg_l; [lia|]. apply Z.pow_le_mono_r; lia. }
    assert (32768 * 2 ^ (n + t - 15) = W) as HW15.
    { unfold W. change 32768 with (2 ^ 15). rewrite <- Z.pow_add_r by lia. f_equal. lia. }
    assert (0 < 2 ^ (n + t - 15)) by (apply Z.pow_pos_nonneg; lia).
    assert (0 ≤ c).
    { subst c. apply Z.mul_nonneg_nonneg; [lia|]. apply Z.pow_nonneg. lia. }
    rewrite Hs in *. lia.
  - (* the integer part is the floor of the exact product *)
    assert (A ≤ σ * A) by (rewrite <- (Z.mul_1_l A) at 1; apply Z.mul_le_mono_nonneg_r; lia).
    assert (k * W ≤ P) as HkP by lia.
    pose proof (Zdigits2_bounds P ltac:(lia)) as HdPb.
    assert (dk + n + t ≤ Zdigits2 P) as Hdd.
    { assert (dk - 1 + (n + t) < Zdigits2 P); [|lia].
      apply (Z.pow_lt_mono_r_iff 2); [lia|pose proof (Zdigits2_pos P); lia|].
      rewrite Z.pow_add_r by lia. fold W.
      eapply Z.le_lt_trans; [|apply HdPb].
      etrans; [|apply HkP]. apply Z.mul_le_mono_nonneg_r; lia. }
    assert (2 * c ≤ 32767 * 2 ^ (n - 15)) as Hc.
    { subst c. replace (2 * (32767 * 2 ^ (dk - 69 + n + t)))
        with (32767 * (2 ^ 1 * 2 ^ (dk - 69 + n + t))) by (simpl; ring).
      rewrite <- Z.pow_add_r by lia.
      apply Z.mul_le_mono_nonneg_l; [lia|]. apply Z.pow_le_mono_r; lia. }
    assert (32768 * 2 ^ (n - 15) = A) as HA15.
    { unfold A. change 32768 with (2 ^ 15). rewrite <- Z.pow_add_r by lia. f_equal. lia. }
    assert (0 < 2 ^ (n - 15)) by (apply Z.pow_pos_nonneg; lia).
    assert (0 ≤ c).
    { subst c. apply Z.mul_nonneg_nonneg; [lia|]. apply Z.pow_nonneg. lia. }
    lia.
Qed.

Lemma float_of_int_max : float_of_int Wave.MAX_SAMPLE_VALUE = Ok MAX_SAMPLE_VALUE_f.
Proof. reflexivity. Qed.

Lemma bounded_canonical (mx : positive) (ex : Z) :
  bounded prec emax mx ex = true →
  Z.max (Zdigits2 (Z.pos mx) + ex - 53) (-1074) = ex ∧ ex ≤ 971.
Proof.
  unfold bounded, canonical_mantissa. rewrite andb_true_iff, Z.eqb_eq, Z.leb_le.
  rewrite fexp_binary64. unfold emax, prec. simpl Zdigits2. lia.
Qed.

(** Scaling a sample of magnitude at most 1 by [MAX_SAMPLE_VALUE] and
    truncating: the result is a short [k] of the sample's sign, within the
    margin of [scale_core] of the exact product. *)
Lemma scale_sample (sx : bool) (mx : positive) (ex : Z) :
  let W := 2 ^ (38 - ex) in
  let S := Z.pos mx * 2 ^ 38 in
  bounded prec emax mx ex = true → ex ≤ 0 → Z.pos mx ≤ 2 ^ (- ex) →
  ∃ k, int_of_float (fmul (S754_finite sx mx ex) MAX_SAMPLE_VALUE_f) = Ok (cond_Zopp sx k)
       ∧ 0 ≤ k ≤ 32767
       ∧ Z.abs (k * W - S * 32767)
         + (if k =? 0 then 0 else 32767 * 2 ^ (Zdigits2 k - 69 + (38 - ex))) ≤ W.
Proof.
  intros W S Hb Hex Hle.
  destruct (bounded_canonical mx ex Hb) as [Hcan Hemax].
  pose proof (Zdigits2_bounds (Z.pos mx) ltac:(lia)) as Hdmx.
  pose proof (Zdigits2_pos (Z.pos mx) ltac:(lia)) as Hdmx0.
  set (dmx := Zdigits2 (Z.pos mx)) in *.
  assert (dmx - 1 ≤ - ex) as Hmag.
  { apply (Z.pow_le_mono_r_iff 2); lia. }
  set (P := Z.pos (mx * 9006924376834048)).
  assert (P = S * 32767) as HP by (unfold P, S; lia).
  assert (0 < 2 ^ (dmx - 1)) by (apply Z.pow_pos_nonneg; lia).
  assert (2 ^ (dmx + 51) ≤ P < 2 ^ (dmx + 53)) as HPb.
  { replace (dmx + 51) with (dmx - 1 + 52) by lia.
    rewrite !Z.pow_add_r by lia. rewrite HP. unfold S.
    change (2 ^ 52) with 4503599627370496. change (2 ^ 53) with 9007199254740992.
    change (2 ^ 38) with 274877906944. lia. }
  pose proof (Zdigits2_bounds P ltac:(lia)) as HdP.
  pose proof (Zdigits2_pos P ltac:(lia)) as HdP0.
  set (dP := Zdigits2 P) in *.
  assert (dmx + 52 ≤ dP ≤ dmx + 53) as HdPr.
  { split.
    - assert (dmx + 51 < dP); [|lia]. apply (Z.pow_lt_mono_r_iff 2); lia.
    - assert (dP - 1 < dmx + 53); [|lia]. apply (Z.pow_lt_mono_r_iff 2); lia. }
  set (e := ex + -38).
  set (n := fexp prec emax (dP + e) - e).
  assert (n = Z.max (dP + e - 53) (-1074) - e) as Hn by (unfold n; by rewrite fexp_binary64).
  assert (38 ≤ n ∧ n < dP ∧ e + n ≤ -37 ∧ dP - 53 ≤ n) as (Hn38 & HndP & Hen & HdPn).
  { unfold e in *. lia. }
  destruct (binary_round_aux_exact sx (mx * 9006924376834048) e)
    as (m1 & m2 & e2 & Hbra & He2 & Hm2 & Hm1 & Hnear).
  { fold P dP n. lia. }
  { fold P dP n. unfold emax, prec. lia. }
  fold P dP n in He2, Hm2, Hm1, Hnear.
  set (t := - (e + n)).
  assert (Z.shiftl (Z.pos m2) e2 = m1 / 2 ^ t) as Hshift.
  { replace e2 with ((e2 - (e + n)) + - t) by (unfold t; lia).
    rewrite <- Z.shiftl_shiftl by lia.
    rewrite (Z.shiftl_mul_pow2 (Z.pos m2) (e2 - (e + n))) by lia. rewrite Hm2.
    rewrite Z.shiftl_opp_r, Z.shiftr_div_pow2 by (unfold t; lia). done. }
  destruct (scale_core P n t m1) as [Hk Hmargin]; try lia.
  { replace (n + t) with (38 - ex) by (unfold t, e; lia). fold W.
    rewrite HP. unfold S, W.
    replace (38 - ex) with (38 + - ex) by lia. rewrite Z.pow_add_r by lia.
    assert (0 < 2 ^ 38) by done. nia. }
  exists (m1 / 2 ^ t). split_and!; try lia.
  - unfold fmul, SFmul, MAX_SAMPLE_VALUE_f. rewrite xorb_false_r.
    fold e. rewrite Hbra. cbn [int_of_float]. rewrite Hshift. reflexivity.
  - replace (n + t) with (38 - ex) in Hmargin by (unfold t, e; lia).
    replace (Zdigits2 (m1 / 2 ^ t) - 69 + n + t)
      with (Zdigits2 (m1 / 2 ^ t) - 69 + (38 - ex)) in Hmargin by (unfold t, e; lia).
    fold W in Hmargin. rewrite <- HP. exact Hmargin.
Qed.

Import FloatFacts TruedivFacts.

Lemma finite_le_1 (mx : positive) (ex : Z) :
  (inject_Z (Z.pos mx) * Qpower 2 ex <= 1)%Q → ex ≤ 0 ∧ Z.pos mx ≤ 2 ^ (- ex).
Proof.
  intros Hle. destruct (Z.le_gt_cases ex 0) as [Hex|Hex].
  - split; [done|].
    replace ex with (- - ex) in Hle by lia. rewrite Qpow2_inv in Hle by lia.
    assert (0 < 2 ^ (- ex)) as Hpow by (apply Z.pow_pos_nonneg; lia).
    assert (0 < inject_Z (2 ^ (- ex)))%Q as HpowQ.
    { replace 0%Q with (inject_Z 0) by done. by rewrite <- Zlt_Qlt. }
    apply (Qmult_le_r _ _ _ HpowQ) in Hle.
    rewrite <- Qmult_assoc, (Qmult_comm (/ _)), Qmult_inv_r, Qmult_1_r, Qmult_1_l in Hle
      by (intros H0; rewrite H0 in HpowQ; by apply Qlt_irrefl in HpowQ).
    by rewrite Zle_Qle.
  - exfalso. rewrite Qpow2_inject, <- inject_Z_mult in Hle by lia.
    replace 1%Q with (inject_Z 1) in Hle by done. rewrite <- Zle_Qle in Hle.
    assert (2 ^ 1 ≤ 2 ^ ex) by (apply Z.pow_le_mono_r; lia).
    change (2 ^ 1) with 2 in *. nia.
Qed.

Lemma finite_value (mx : positive) (ex : Z) :
  ex ≤ 0 →
  (inject_Z (Z.pos mx) * Qpower 2 ex
   == inject_Z (Z.pos mx * 2 ^ 38) / inject_Z (2 ^ (38 - ex)))%Q.
Proof.
  intros Hex.
  replace (38 - ex) with (38 + - ex) by lia. rewrite Z.pow_add_r by lia.
  replace ex with (- - ex) at 1 by lia. rewrite Qpow2_inv by lia.
  rewrite !inject_Z_mult.
  assert (0 < 2 ^ (- ex)) as Hpow by (apply Z.pow_pos_nonneg; lia).
  assert (¬ inject_Z (2 ^ (- ex)) == 0)%Q as Hnz.
  { intros H0. unfold Qeq in H0. simpl in H0. lia. }
  change (2 ^ 38) with 274877906944. field. exact Hnz.
Qed.

(** Dividing the integer margin by [32767 * W]. *)
Lemma margin_to_Q (K S W C : Q) :
  (0 < W)%Q →
  (K * W - S * 32767 <= W - C)%Q →
  (K / 32767 - S / W <= 1 / 32767 - C / (32767 * W))%Q.
Proof.
  intros HW H.
  assert (0 < 32767 * W)%Q as Hpos by lra.
  apply (Qmult_le_r _ _ _ Hpos).
  assert (¬ W == 0)%Q as Hnz by lra.
  setoid_replace ((K / 32767 - S / W) * (32767 * W))%Q with (K * W - S * 32767)%Q
    using relation Qeq by (field; done).
  setoid_replace ((1 / 32767 - C / (32767 * W)) * (32767 * W))%Q with (W - C)%Q
    using relation Qeq by (field; done).
  done.
Qed.

Lemma margin_abs_to_Q (K S W C : Q) :
  (0 < W)%Q →
  (K * W - S * 32767 <= W - C)%Q → (S * 32767 - K * W <= W - C)%Q →
  (Qabs (K / 32767 - S / W) <= 1 / 32767 - C / (32767 * W))%Q.
Proof.
  intros HW H1 H2. apply Qabs_Qle_condition. split.
  - pose proof (margin_to_Q (- K) (- S) W C HW) as H.
    assert (¬ W == 0)%Q as Hnz by lra.
    setoid_replace (- K / 32767 - - S / W)%Q with (- (K / 32767 - S / W))%Q
      using relation Qeq in H by (field; done).
    assert (- K * W - - S * 32767 <= W - C)%Q as H' by lra.
    specialize (H H'). lra.
  - by apply margin_to_Q.
Qed.

Lemma truediv_error_bound_opp (k : Z) :
  truediv_error_bound (- k) = truediv_error_bound k.
Proof. by destruct k. Qed.

Lemma truediv_error_bound_margin (k ex : Z) :
  0 ≤ k → ex ≤ -52 →
  (inject_Z (if k =? 0 then 0 else 32767 * 2 ^ (Zdigits2 k - 69 + (38 - ex)))
   / (32767 * inject_Z (2 ^ (38 - ex))) == truediv_error_bound k)%Q.
Proof.
  intros Hk Hex. unfold truediv_error_bound.
  pose proof (Qpow2_pos (38 - ex)) as Hpos.
  rewrite <- (Qpow2_inject (38 - ex)) by lia.
  destruct (Z.eqb_spec k 0) as [->|Hne].
  - change (inject_Z 0) with 0%Q. field. lra.
  - pose proof (Zdigits2_pos k ltac:(lia)).
    rewrite inject_Z_mult, <- Qpow2_inject, Qpow2_add by lia.
    change (inject_Z 32767) with 32767%Q. field. lra.
Qed.

(** One sample through [int(sample * MAX_SAMPLE_VALUE)] and
    [int_sample / MAX_SAMPLE_VALUE]. *)
Lemma roundtrip_sample (s : float) :
  valid s = true → is_finite s = true → (Qabs (SF2Q s) <= 1)%Q →
  ∃ k r, int_of_float (fmul s MAX_SAMPLE_VALUE_f) = Ok k ∧ -32767 ≤ k ≤ 32767
         ∧ int_truediv k 32767 = Ok r ∧ is_finite r = true
         ∧ (Qabs (SF2Q r - SF2Q s) <= 1 # 32767)%Q.
Proof.
  intros Hv Hf Hle. destruct s as [sx|sx| |sx mx ex]; try done.
  - exists 0, (S754_zero false). split_and!; first [done|lia].
  - set (y := (inject_Z (Z.pos mx) * Qpower 2 ex)%Q) in *.
    assert (0 < y)%Q as Hy.
    { apply Qmult_lt_0_compat; [done|apply Qpow2_pos]. }
    assert (y <= 1)%Q as Hy1.
    { cbn [SF2Q] in Hle. fold y in Hle. destruct sx.
      - rewrite Qabs_opp, Qabs_pos in Hle by lra. done.
      - rewrite Qabs_pos in Hle by lra. done. }
    destruct (finite_le_1 mx ex Hy1) as [Hex Hmx].
    destruct (bounded_canonical mx ex Hv) as [Hcan _].
    pose proof (Zdigits2_bounds (Z.pos mx) ltac:(lia)) as Hdmx.
    assert (ex ≤ -52) as Hex52.
    { assert (Zdigits2 (Z.pos mx) - 1 ≤ - ex) by (apply (Z.pow_le_mono_r_iff 2); lia). lia. }
    destruct (scale_sample sx mx ex Hv Hex Hmx) as (k0 & Hint & Hk0 & Hmargin).
    destruct (truediv_short (cond_Zopp sx k0)) as (r & Hr & Hrfin & _ & Hclose).
    { destruct sx; simpl; lia. }
    exists (cond_Zopp sx k0), r. split_and!; [done|destruct sx; simpl; lia..|done|done|].
    set (W := 2 ^ (38 - ex)) in *. set (S := Z.pos mx * 2 ^ 38) in *.
    set (c := if k0 =? 0 then 0 else 32767 * 2 ^ (Zdigits2 k0 - 69 + (38 - ex))) in *.
    assert (0 < W) as HW by (apply Z.pow_pos_nonneg; lia).
    assert (0 < inject_Z W)%Q as HWq.
    { replace 0%Q with (inject_Z 0) by done. by rewrite <- Zlt_Qlt. }
    assert (inject_Z k0 * inject_Z W - inject_Z S * 32767 <= inject_Z W - inject_Z c)%Q as H1.
    { assert (k0 * W + - (S * 32767) ≤ W + - c) as HZ by lia.
      rewrite Zle_Qle, !inject_Z_plus, !inject_Z_opp, !inject_Z_mult in HZ. exact HZ. }
    assert (inject_Z S * 32767 - inject_Z k0 * inject_Z W <= inject_Z W - inject_Z c)%Q as H2.
    { assert (S * 32767 + - (k0 * W) ≤ W + - c) as HZ by lia.
      rewrite Zle_Qle, !inject_Z_plus, !inject_Z_opp, !inject_Z_mult in HZ. exact HZ. }
    pose proof (margin_abs_to_Q _ _ _ _ HWq H1 H2) as Hm.
    pose proof (truediv_error_bound_margin k0 ex ltac:(lia) Hex52) as Hg.
    pose proof (finite_value mx ex Hex) as Hyy.
    fold W c in Hg. fold y S W in Hyy.
    set (g := (inject_Z c / (32767 * inject_Z W))%Q) in *.
    set (yy := (inject_Z S / inject_Z W)%Q) in *.
    set (tb := truediv_error_bound k0) in *.
    apply Qabs_Qle_condition in Hm. apply Qabs_Qle_condition in Hclose.
    apply Qabs_Qle_condition.
    setoid_replace (1 # 32767)%Q with (1 / 32767)%Q using relation Qeq by done.
    cbn [SF2Q]. fold y.
    destruct sx; cbn [cond_Zopp] in Hclose.
    + rewrite truediv_error_bound_opp, inject_Z_opp in Hclose. fold tb in Hclose.
      setoid_replace (- inject_Z k0 / 32767)%Q with (- (inject_Z k0 / 32767))%Q
        using relation Qeq in Hclose by (field; done).
      set (rq := SF2Q r) in *. set (kq := (inject_Z k0 / 32767)%Q) in *.
      clearbody g yy tb y rq kq. clear -Hm Hg Hyy Hclose. lra.
    + fold tb in Hclose.
      set (rq := SF2Q r) in *. set (kq := (inject_Z k0 / 32767)%Q) in *.
      clearbody g yy tb y rq kq. clear -Hm Hg Hyy Hclose. lra.
Qed.

End ScaleFacts.

(** ** Rounding to nearest, in general *)

Module RoundFacts2.
Import PyFloat Wave Reference Checks Rounding RoundFacts ShapeFacts FloatFacts.
Local Open Scope Z_scope.













(** *** Products and quotients against the exact rationals *)





(** *** Relative errors *)

Lemma rel_exact (X : Q) : rel X X 0.
Proof.
  unfold rel. setoid_replace (X - X)%Q with 0%Q using relation Qeq by ring.
  rewrite Qmult_0_l. apply Qle_refl.
Qed.









#[local] Instance rel_proper : Proper (Qeq ==> Qeq ==> Qeq ==> iff) rel.
Proof. intros x x' Hx X X' HX e e' He. unfold rel. by rewrite Hx, HX, He. Qed.





End RoundFacts2.

(** ** [math.pi] against pi *)

Module PiFacts.
Import Stdlib.Reals.Reals Stdlib.Reals.Machin Stdlib.Reals.Qreals Stdlib.micromega.Lra.
Import Reference PiSeries.
Local Open Scope R_scope.





End PiFacts.

(** ** The sample codec *)

Module CodecFacts.
Import PyFloat Struct Wave Reference Checks ResFacts StructFacts FloatFacts TruedivFacts ScaleFacts.

(** *** The two converters, unfolded *)

Lemma convert_to_bytes_unfold host (samples : list float) :
  convert_to_bytes host samples
  = match res_map scale samples with
    | Ok ints =>
        if forallb (in_range (-32768) 32767) ints
        then Ok (concat (encode_int host 2 <$> ints))
        else Raise (struct_error OutOfRange)
    | Raise e => Raise e
    end.
Proof.
  unfold convert_to_bytes, shorts. cbn [fst snd].
  change (λ sample, x ← fmul_int sample MAX_SAMPLE_VALUE;;; int_of_float x) with scale.
  destruct (res_map scale samples) as [ints|e] eqn:Hm; cbn [res_bind]; [|done].
  apply res_map_Ok, Forall2_length in Hm. rewrite Hm. apply pack_shorts.
Qed.

Lemma chunk_lookup {A} (f : A → list byte) (l : list A) (i : nat) :
  (∀ x, length (f x) = 2) →
  take 2 (drop (2 * i) (concat (f <$> l))) = default [] (f <$> l !! i).
Proof.
  intros Hlen. revert i. induction l as [|x l IH]; intros i.
  - rewrite fmap_nil. cbn [concat]. by rewrite drop_nil, take_nil.
  - rewrite fmap_cons. cbn [concat]. destruct i as [|i].
    + rewrite Nat.mul_0_r, drop_0. rewrite take_app_length'; done.
    + replace (2 * S i) with (length (f x) + 2 * i) by (rewrite Hlen; lia).
      rewrite drop_app_add. apply IH.
Qed.

Lemma length_concat_chunks {A} (f : A → list byte) (l : list A) :
  (∀ x, length (f x) = 2) → length (concat (f <$> l)) = 2 * length l.
Proof.
  intros Hlen. induction l as [|x l IH]; [done|].
  rewrite fmap_cons. cbn [concat]. rewrite length_app, Hlen, IH. simpl. lia.
Qed.

Lemma length_encode_int host z : length (encode_int host 2 z) = 2.
Proof. by destruct host. Qed.

(** Unpacking what was packed gives the shorts back. *)
Lemma unpack_packed_shorts host (ints : list Z) :
  Forall (λ z, (-32768 ≤ z ≤ 32767)%Z) ints →
  unpack (native host)
         (replicate (length (concat (encode_int host 2 <$> ints)) `div` 2) fmt_h)
         (concat (encode_int host 2 <$> ints))
  = Ok (VInt <$> ints).
Proof.
  intros Hr. rewrite unpack_shorts.
  rewrite (length_concat_chunks _ _ (length_encode_int host)).
  replace (2 * length ints) with (length ints * 2) by lia.
  rewrite Nat.Div0.mod_mul, Nat.div_mul by lia. rewrite decide_True by done.
  f_equal. apply list_eq. intros i.
  rewrite !list_lookup_fmap.
  destruct (ints !! i) as [z|] eqn:Hz.
  - rewrite lookup_seq_lt by (by eapply lookup_lt_Some). cbn [fmap option_fmap option_map].
    rewrite (chunk_lookup _ _ _ (length_encode_int host)), Nat.add_0_l, Hz. simpl.
    rewrite decode_encode_short; [done|]. by eapply (Forall_lookup_1 _ _ _ _ Hr).
  - rewrite lookup_seq_ge; [done|]. by apply lookup_ge_None.
Qed.

Lemma convert_to_samples_unfold host (sample_bytes : list byte) :
  convert_to_samples host sample_bytes
  = if decide (length sample_bytes `mod` 2 = 0)
    then res_map (λ i, int_truediv (decode_signed host (take 2 (drop (2 * i) sample_bytes)))
                                   MAX_SAMPLE_VALUE)
                 (seq 0 (length sample_bytes `div` 2))
    else Raise (struct_error (BadBufferSize (2 * (length sample_bytes `div` 2)))).
Proof.
  unfold convert_to_samples, shorts. cbn [fst snd].
  replace (Z.to_nat (Z.of_nat (length sample_bytes) `div` SAMPLE_WIDTH))
    with (length sample_bytes `div` 2).
  2:{ change SAMPLE_WIDTH with (Z.of_nat 2). rewrite <- Nat2Z.inj_div. lia. }
  rewrite unpack_shorts. case_decide; cbn [res_bind]; [|done].
  by rewrite res_map_fmap.
Qed.

Lemma forallb_in_range lo hi (l : list Z) :
  forallb (in_range lo hi) l = true ↔ Forall (λ z, (lo ≤ z ≤ hi)%Z) l.
Proof.
  induction l as [|z l IH]; cbn [forallb].
  - split; [constructor|done].
  - rewrite andb_true_iff, Forall_cons, IH, in_range_spec. done.
Qed.

Lemma shorts_count (sample_bytes : list byte) :
  Z.to_nat (Z.of_nat (length sample_bytes) `div` SAMPLE_WIDTH) = length sample_bytes `div` 2.
Proof. change SAMPLE_WIDTH with (Z.of_nat 2). rewrite <- Nat2Z.inj_div. lia. Qed.

Lemma scale_finite (s : float) :
  is_finite (fmul s MAX_SAMPLE_VALUE_f) = true →
  scale s = Ok (round_toward_zero (SF2Q (fmul s MAX_SAMPLE_VALUE_f))).
Proof.
  intros Hf. destruct (int_of_float_finite _ Hf) as [z Hz].
  unfold scale. rewrite Hz. f_equal. by apply int_of_float_spec.
Qed.

(** *** Decoding *)

Lemma take_drop_pair (b : list byte) (i : nat) (lo hi : byte) :
  b !! (2 * i) = Some lo → b !! (2 * i + 1) = Some hi →
  take 2 (drop (2 * i) b) = [lo; hi].
Proof.
  intros Hlo Hhi. apply list_eq. intros [|[|j]].
  - rewrite lookup_take_lt, lookup_drop by lia. by rewrite Nat.add_0_r.
  - rewrite lookup_take_lt, lookup_drop by lia. done.
  - rewrite lookup_take_ge by lia. done.
Qed.

Lemma int16_of_range (lo hi : byte) : (-32768 ≤ int16_of lo hi ≤ 32767)%Z.
Proof.
  unfold int16_of.
  pose proof (byte.unsigned_range lo). pose proof (byte.unsigned_range hi).
  change (2 ^ 8)%Z with 256%Z in *. case_decide; lia.
Qed.


End CodecFacts.

Module CodecClaims.
Import PyFloat Struct Wave Reference Checks ResFacts StructFacts FloatFacts TruedivFacts
  ScaleFacts CodecFacts.

(** The first file [main] writes: [[0.8, -0.8, 0.5, -0.5, 0.2, -0.2]]. *)
Example main_test_samples :
  convert_to_bytes little
    [S754_finite false 7205759403792794 (-53); S754_finite true 7205759403792794 (-53);
     S754_finite false 4503599627370496 (-53); S754_finite true 4503599627370496 (-53);
     S754_finite false 7205759403792794 (-55); S754_finite true 7205759403792794 (-55)]
  = Ok (int16_le 26213 ++ int16_le (-26213) ++ int16_le 16383 ++ int16_le (-16383)
        ++ int16_le 6553 ++ int16_le (-6553)).
Proof. reflexivity. Qed.





(** C3, as the specification words it, fails: the sample [2.0] scales to
    [65534], which is no short; [convert_to_bytes] raises [struct.error]
    and neither wraps the value (to [-2]) nor returns any bytes. *)
Lemma convert_to_bytes_no_wraparound :
  scale two = Ok 65534%Z
  ∧ ¬ (-32768 ≤ 65534 ≤ 32767)%Z
  ∧ convert_to_bytes little [two] = Raise (struct_error OutOfRange)
  ∧ convert_to_bytes little [two] ≠ Ok (int16_le ((65534 + 32768) `mod` 65536 - 32768)).
Proof. split_and!; [done|lia|done|done]. Qed.

(** C3, amended.  When every scaled sample is a finite number and one of
    them does not fit a signed 16-bit integer, [convert_to_bytes] raises
    [struct.error] (out of range): nothing is wrapped, clamped or written,
    whatever the host. *)
Theorem convert_to_bytes_out_of_range host (samples : list float) :
  Forall (λ s, is_finite (fmul s MAX_SAMPLE_VALUE_f) = true) samples →
  Exists (λ s, ¬ (-32768 ≤ round_toward_zero (SF2Q (fmul s MAX_SAMPLE_VALUE_f)) ≤ 32767)%Z)
         samples →
  convert_to_bytes host samples = Raise (struct_error OutOfRange).
Proof.
  intros Hfin Hex. rewrite convert_to_bytes_unfold.
  rewrite (res_map_total scale (λ s, round_toward_zero (SF2Q (fmul s MAX_SAMPLE_VALUE_f)))).
  2:{ eapply Forall_impl; [exact Hfin|]. intros s Hf. by apply scale_finite. }
  destruct (forallb _ _) eqn:Hall; [|done]. exfalso.
  apply forallb_in_range, Forall_fmap in Hall.
  apply Exists_exists in Hex as (s & Hs & Hout).
  rewrite Forall_forall in Hall. by apply Hout, Hall.
Qed.

Lemma convert_to_bytes_out_of_range_witness :
  convert_to_bytes little [one; two] = Raise (struct_error OutOfRange).
Proof.
  apply (convert_to_bytes_out_of_range little [one; two]).
  - repeat constructor.
  - apply Exists_cons_tl, Exists_cons_hd. vm_compute. intros [_ H]. by apply H.
Defined.





(** C1.  Encoding samples of magnitude at most 1 and decoding the bytes
    succeeds, gives as many samples back, and each decoded sample is a
    finite float within one quantization step [1/32767] of the original
    (as exact rationals), on any host. *)
Theorem roundtrip_within_one_step host (samples : list float) :
  Forall (λ s, valid s = true ∧ is_finite s = true ∧ (Qabs (SF2Q s) <= 1)%Q) samples →
  ∃ sample_bytes decoded,
    convert_to_bytes host samples = Ok sample_bytes
    ∧ convert_to_samples host sample_bytes = Ok decoded
    ∧ length decoded = length samples
    ∧ Forall2 (λ s r, is_finite r = true ∧ (Qabs (SF2Q r - SF2Q s) <= 1 # 32767)%Q)
              samples decoded.
Proof.
  intros Hall.
  assert (∃ ints decoded,
            Forall2 (λ s k, scale s = Ok k) samples ints
            ∧ Forall (λ k, (-32768 ≤ k ≤ 32767)%Z) ints
            ∧ Forall2 (λ k r, int_truediv k MAX_SAMPLE_VALUE = Ok r) ints decoded
            ∧ Forall2 (λ s r, is_finite r = true
                              ∧ (Qabs (SF2Q r - SF2Q s) <= 1 # 32767)%Q) samples decoded)
    as (ints & decoded & Hscale & Hrange & Hdiv & Hclose).
  { induction Hall as [|s samples (Hv & Hf & Hle) _ (ints & decoded & H1 & H2 & H3 & H4)].
    - exists [], []. split_and!; constructor.
    - destruct (roundtrip_sample s Hv Hf Hle) as (k & r & Hk & Hkr & Hr & Hrf & Hq).
      exists (k :: ints), (r :: decoded).
      split_and!; constructor; try done. lia. }
  exists (concat (encode_int host 2 <$> ints)), decoded.
  split_and!; [| |by rewrite <- (Forall2_length _ _ _ Hclose)|done].
  - rewrite convert_to_bytes_unfold.
    apply res_map_Ok in Hscale. rewrite Hscale.
    apply forallb_in_range in Hrange. by rewrite Hrange.
  - unfold convert_to_samples, shorts. cbn [fst snd]. rewrite shorts_count.
    rewrite (unpack_packed_shorts host ints Hrange). cbn [res_bind].
    rewrite res_map_fmap. by apply res_map_Ok.
Qed.

Lemma roundtrip_within_one_step_witness :
  ∃ sample_bytes decoded,
    convert_to_bytes little [one; minus_one] = Ok sample_bytes
    ∧ convert_to_samples little sample_bytes = Ok decoded
    ∧ length decoded = 2
    ∧ Forall2 (λ s r, is_finite r = true ∧ (Qabs (SF2Q r - SF2Q s) <= 1 # 32767)%Q)
              [one; minus_one] decoded.
Proof.
  apply (roundtrip_within_one_step little [one; minus_one]).
  repeat constructor; vm_compute; congruence.
Defined.

End CodecClaims.

(** ** The sine generator *)

Module SineFacts.
Import PyFloat Wave Reference Checks Rounding ResFacts FloatFacts RoundFacts ShapeFacts RoundFacts2.
Local Open Scope Z_scope.












End SineFacts.

Module SineClaims.
Import PyFloat Wave Reference Checks Rounding ResFacts FloatFacts RoundFacts ShapeFacts
  RoundFacts2 SineFacts.
Import Stdlib.Reals.Rdefinitions Stdlib.Reals.Rbasic_fun Stdlib.Reals.Rtrigo1 Stdlib.Reals.Qreals.
Local Open Scope Z_scope.





End SineClaims.
(** ** Further facts on channels: [zip] stops with the shortest channel *)

Module ChannelFacts2.
Import Channels ChannelFacts.

Section MoreChannels.
Context {A : Type}.
Implicit Types (s buffer ch it : list A) (its rest channels : list (list A)).

Lemma heads_take its k : heads (take (S k) <$> its) = heads its.
Proof.
  induction its as [|it its IH]; [done|].
  rewrite fmap_cons. destruct it as [|x it]; [done|]. cbn [take heads]. by rewrite IH.
Qed.

Lemma heads_exhausted its : Exists (λ it, length it = 0) its → heads its = None.
Proof.
  induction 1 as [it its Hit|it its _ IH].
  - by destruct it.
  - cbn [heads]. destruct it; [done|]. by rewrite IH.
Qed.

(** [zip] stops with the shortest iterator: the rounds are those of the
    channels cut to the shortest length. *)
Lemma zip_rounds_shortest n its fuel :
  Forall (λ it, n ≤ length it) its → Exists (λ it, length it = n) its → n ≤ fuel →
  zip_rounds fuel its = zip_rounds n (take n <$> its).
Proof.
  revert its fuel. induction n as [|n IH]; intros its fuel Hall Hex Hfuel.
  - destruct fuel; [done|]. cbn [zip_rounds]. by rewrite heads_exhausted.
  - destruct fuel as [|fuel]; [lia|]. cbn [zip_rounds]. rewrite heads_take.
    destruct (heads its) as [tuple|]; [|done]. f_equal.
    rewrite (IH (tail <$> its) fuel); [| | |lia].
    + f_equal. rewrite <- !list_fmap_compose. apply list_fmap_ext.
      intros _ it _. simpl. destruct it; [|done]. by destruct n.
    + apply Forall_fmap. eapply Forall_impl; [exact Hall|].
      intros it Hit. simpl. destruct it; simpl in *; lia.
    + apply Exists_fmap. eapply Exists_impl; [exact Hex|].
      intros it Hit. simpl. destruct it; simpl in *; lia.
Qed.

Lemma zip_rounds_length n its :
  Forall (λ it, length it = n) its →
  its ≠ [] → length (concat (zip_rounds n its)) = n * length its.
Proof.
  revert its. induction n as [|n IH]; intros its Hall Hne; [done|].
  destruct (heads_full its n Hall) as (tuple & Htu & Hlen & _).
  cbn [zip_rounds]. rewrite Htu. cbn [concat]. rewrite length_app, Hlen.
  rewrite (IH (tail <$> its)).
  - rewrite length_fmap. lia.
  - apply Forall_fmap. eapply Forall_impl; [exact Hall|].
    intros it Hit. simpl. destruct it; simpl in *; lia.
  - by destruct its.
Qed.

Lemma merge_channels_shortest n channels :
  Forall (λ ch, n ≤ length ch) channels → Exists (λ ch, length ch = n) channels →
  merge_channels channels = merge_channels (take n <$> channels).
Proof.
  intros Hall Hex. unfold merge_channels, zip_star.
  destruct channels as [|it rest]; [done|]. rewrite fmap_cons.
  assert (n ≤ length it) as Hit by (by inversion Hall).
  rewrite length_take, (Nat.min_l n) by done.
  rewrite <- fmap_cons. f_equal. by apply zip_rounds_shortest.
Qed.

Lemma merge_channels_shortest_length n channels :
  Forall (λ ch, n ≤ length ch) channels → Exists (λ ch, length ch = n) channels →
  length (merge_channels channels) = n * length channels.
Proof.
  intros Hall Hex. rewrite (merge_channels_shortest n channels Hall Hex).
  assert (Forall (λ ch, length ch = n) (take n <$> channels)) as Heq.
  { apply Forall_fmap. eapply Forall_impl; [exact Hall|].
    intros ch Hch. simpl in *. rewrite length_take. lia. }
  unfold merge_channels, zip_star.
  destruct channels as [|it rest] eqn:Hc; [by inversion Hex|].
  rewrite <- Hc in *. destruct (take n <$> channels) as [|it' rest'] eqn:Ht.
  { rewrite Hc in Ht. done. }
  rewrite <- Ht in *. assert (length it' = n) as ->.
  { rewrite Ht in Heq. by inversion Heq. }
  rewrite zip_rounds_length; [by rewrite length_fmap|done|]. by rewrite Ht.
Qed.

Lemma merge_channels_shortest_lookup n channels c ch t :
  Forall (λ ch, n ≤ length ch) channels → Exists (λ ch, length ch = n) channels →
  channels !! c = Some ch → t < n →
  merge_channels channels !! (c + t * length channels) = ch !! t.
Proof.
  intros Hall Hex Hc Ht. rewrite (merge_channels_shortest n channels Hall Hex).
  assert (Forall (λ ch, length ch = n) (take n <$> channels)) as Heq.
  { apply Forall_fmap. eapply Forall_impl; [exact Hall|].
    intros ch' Hch. simpl in *. rewrite length_take. lia. }
  rewrite <- (length_fmap (take n) channels).
  rewrite (merge_channels_lookup n _ c (take n ch) t Heq).
  - by rewrite lookup_take_lt.
  - by rewrite list_lookup_fmap, Hc.
Qed.

(** Separating and merging again gives back the complete frames. *)
Lemma merge_separate n buffer :
  0 < n →
  merge_channels (separate_channels buffer (Z.of_nat n))
  = take (n * (length buffer `div` n)) buffer.
Proof.
  intros Hn.
  pose proof (Nat.div_mod_eq (length buffer) n) as Hdm.
  pose proof (Nat.mod_upper_bound (length buffer) n ltac:(lia)) as Hr.
  set (q := length buffer `div` n) in *. set (r := length buffer `mod` n) in *.
  set (chans := separate_channels buffer (Z.of_nat n)).
  assert (length chans = n) as Hlen.
  { unfold chans. rewrite separate_channels_length. lia. }
  assert (∀ c, c < n → chans !! c = Some (slice_from_step buffer c n)) as Hlk.
  { intros c Hc. unfold chans. rewrite separate_channels_lookup by lia.
    by rewrite Nat2Z.id. }
  assert (∀ c, c < n → length (slice_from_step buffer c n)
                       = q + (if decide (c < r) then 1 else 0)) as Hsl.
  { intros c Hc. rewrite slice_from_step_length by done. by apply slice_length_channel. }
  assert (Forall (λ ch, q ≤ length ch) chans ∧ Exists (λ ch, length ch = q) chans)
    as [Hall Hex].
  { split.
    - apply Forall_lookup. intros c ch Hc.
      assert (c < n) as Hcn by (rewrite <- Hlen; by eapply lookup_lt_Some).
      rewrite Hlk in Hc by done. injection Hc as <-. rewrite Hsl by done. lia.
    - apply Exists_exists. exists (slice_from_step buffer (n - 1) n). split.
      + apply list_elem_of_lookup. exists (n - 1). apply Hlk. lia.
      + rewrite Hsl by lia. rewrite decide_False by lia. lia. }
  pose proof (merge_channels_shortest_length q chans Hall Hex) as Hmlen.
  pose proof (λ c ch t, merge_channels_shortest_lookup q chans c ch t Hall Hex) as Hmlk.
  rewrite Hlen in Hmlen, Hmlk.
  apply list_eq. intros i.
  destruct (decide (i < n * q)) as [Hi|Hi].
  - rewrite lookup_take_lt by done.
    pose proof (Nat.div_mod_eq i n) as Hidm.
    pose proof (Nat.mod_upper_bound i n ltac:(lia)) as Hir.
    assert (i `div` n < q) as Hiq.
    { apply Nat.Div0.div_lt_upper_bound. lia. }
    replace i with (i `mod` n + i `div` n * n) at 1 by lia.
    rewrite (Hmlk _ _ _ (Hlk _ Hir) Hiq).
    rewrite slice_from_step_lookup by done. f_equal. lia.
  - rewrite lookup_take_ge by lia. apply lookup_ge_None. lia.
Qed.

End MoreChannels.
End ChannelFacts2.

Module ChannelExtras.
Import Channels ChannelFacts ChannelFacts2.

(** X1.  [merge_channels] stops with the shortest channel: when every channel
    has at least [n] items and one has exactly [n], the merged list has
    [n * len(channels)] items, and item [t] of channel [c] (for [t < n]) is at
    index [c + t * len(channels)]; the items past index [n] of the longer
    channels are dropped. *)
Theorem merge_channels_truncates {A} (channels : list (list A)) (n : nat) :
  Forall (λ ch, n ≤ length ch) channels → Exists (λ ch, length ch = n) channels →
  length (merge_channels channels) = n * length channels
  ∧ ∀ c ch t, channels !! c = Some ch → t < n →
      merge_channels channels !! (c + t * length channels) = ch !! t.
Proof.
  intros Hall Hex. split.
  - by apply merge_channels_shortest_length.
  - intros c ch t Hc Ht. by apply (merge_channels_shortest_lookup n).
Qed.

Lemma merge_channels_truncates_witness :
  length (merge_channels [[1; 2; 3]; [4; 5]; [6; 7; 8; 9]]) = 2 * 3
  ∧ ∀ c ch t, [[1; 2; 3]; [4; 5]; [6; 7; 8; 9]] !! c = Some ch → t < 2 →
      merge_channels [[1; 2; 3]; [4; 5]; [6; 7; 8; 9]] !! (c + t * 3) = ch !! t.
Proof.
  apply (merge_channels_truncates [[1; 2; 3]; [4; 5]; [6; 7; 8; 9]] 2).
  - repeat constructor.
  - apply Exists_cons_tl, Exists_cons_hd. reflexivity.
Defined.

(** X2.  Merging the channels that [separate_channels] made of a buffer gives
    back the complete frames of the buffer, that is its first
    [n * (len(buffer) // n)] items; it gives back the whole buffer exactly
    when the length is a multiple of the number of channels. *)
Theorem merge_separate_prefix {A} (buffer : list A) (num_channels : Z) :
  (0 < num_channels)%Z →
  merge_channels (separate_channels buffer num_channels)
  = take (Z.to_nat num_channels * (length buffer `div` Z.to_nat num_channels)) buffer
  ∧ (merge_channels (separate_channels buffer num_channels) = buffer
     ↔ length buffer `mod` Z.to_nat num_channels = 0).
Proof.
  intros Hpos.
  assert (0 < Z.to_nat num_channels) as Hn by lia.
  pose proof (merge_separate (Z.to_nat num_channels) buffer Hn) as Hm.
  rewrite Z2Nat.id in Hm by lia.
  split; [done|]. rewrite Hm.
  pose proof (Nat.div_mod_eq (length buffer) (Z.to_nat num_channels)) as Hdm.
  split.
  - intros Heq. apply (f_equal length) in Heq. rewrite length_take in Heq. lia.
  - intros Hr0. apply take_ge. lia.
Qed.

Lemma merge_separate_prefix_witness :
  (0 < 2)%Z
  ∧ merge_channels (separate_channels [1; 2; 3; 4; 5] 2) = [1; 2; 3; 4].
Proof.
  split; [lia|]. apply (merge_separate_prefix [1; 2; 3; 4; 5] 2). lia.
Defined.

(** X3.  With a number of channels that is zero or negative,
    [separate_channels] returns no channel at all: [range] is empty, so the
    slice (whose step 0 would raise [ValueError]) is never evaluated; merging
    the result gives the empty list, not the buffer. *)
Theorem separate_channels_nonpositive {A} (samples : list A) (num_channels : Z) :
  (num_channels ≤ 0)%Z →
  separate_channels samples num_channels = []
  ∧ merge_channels (separate_channels samples num_channels) = [].
Proof.
  intros Hn. unfold separate_channels, range.
  by replace (Z.to_nat num_channels) with 0 by lia.
Qed.

Lemma separate_channels_nonpositive_witness :
  separate_channels [1; 2; 3] 0 = []
  ∧ merge_channels (separate_channels [1; 2; 3] 0) = [].
Proof.
  apply (separate_channels_nonpositive [1; 2; 3] 0). lia.
Defined.

End ChannelExtras.

(** ** Further facts on the sample codec *)

Module CodecFacts2.
Import PyFloat Struct Wave Reference Checks Decode Checks2 ResFacts StructFacts FloatFacts
  TruedivFacts CodecFacts.

(** The first item on which [f] raises decides the exception of the map. *)
Lemma res_map_first_raise {A B} (f : A → res B) (pre post : list A) (x : A) (e : exn) :
  Forall (λ a, ∃ y, f a = Ok y) pre → f x = Raise e →
  res_map f (pre ++ x :: post) = Raise e.
Proof.
  intros Hpre Hx. induction Hpre as [|a pre [y Hy] _ IH]; cbn [app res_map].
  - by rewrite Hx.
  - by rewrite Hy, IH.
Qed.

Lemma scale_Ok_inv (s : float) (k : Z) :
  scale s = Ok k →
  is_finite (fmul s MAX_SAMPLE_VALUE_f) = true
  ∧ k = round_toward_zero (SF2Q (fmul s MAX_SAMPLE_VALUE_f)).
Proof.
  intros Hk. split; [|by apply int_of_float_spec].
  unfold scale in Hk. by destruct (fmul s MAX_SAMPLE_VALUE_f).
Qed.

Lemma scale_not_finite (s : float) :
  is_finite (fmul s MAX_SAMPLE_VALUE_f) = false →
  scale s = Raise (match fmul s MAX_SAMPLE_VALUE_f with
                   | S754_nan => ValueError
                   | _ => OverflowError
                   end).
Proof. unfold scale. by destruct (fmul s MAX_SAMPLE_VALUE_f). Qed.

(** *** Sign symmetry of the float operations *)

Lemma binary_round_aux_negb (s : bool) (m e : Z) (l : location) :
  binary_round_aux prec emax (negb s) m e l = SFopp (binary_round_aux prec emax s m e l).
Proof.
  unfold binary_round_aux.
  destruct (shr_fexp prec emax m e l) as [mrs' e'].
  destruct (shr_fexp prec emax _ e' loc_Exact) as [mrs'' e''].
  destruct (shr_m mrs''); [done| |done].
  by destruct (e'' <=? emax - prec)%Z.
Qed.

Lemma fmul_opp (x : float) (sy : bool) (my : positive) (ey : Z) :
  fmul (SFopp x) (S754_finite sy my ey) = SFopp (fmul x (S754_finite sy my ey)).
Proof.
  destruct x as [s|s| |s m e]; [by destruct s, sy..|done|].
  unfold fmul, SFmul, SFopp at 1.
  rewrite <- binary_round_aux_negb. by destruct s, sy.
Qed.

Lemma int_of_float_opp (x : float) :
  int_of_float (SFopp x) = (z ← int_of_float x ;;; Ok (- z)%Z).
Proof.
  destruct x as [s|s| |s m e]; try done.
  destruct s; cbn [SFopp negb int_of_float cond_Zopp res_bind]; f_equal; lia.
Qed.

Lemma scale_opp (x : float) : scale (SFopp x) = (z ← scale x ;;; Ok (- z)%Z).
Proof. unfold scale, MAX_SAMPLE_VALUE_f. by rewrite fmul_opp, int_of_float_opp. Qed.

Lemma int_truediv_neg (p : positive) :
  int_truediv (Z.neg p) 32767 = (r ← int_truediv (Z.pos p) 32767 ;;; Ok (SFopp r)).
Proof.
  unfold int_truediv.
  change (Z.neg p <? 0)%Z with true. change (Z.pos p <? 0)%Z with false.
  change (32767 <? 0)%Z with false.
  change (Z.to_pos (Z.abs (Z.neg p))) with p. change (Z.to_pos (Z.abs (Z.pos p))) with p.
  unfold fdiv, SFdiv.
  destruct (SFdiv_core_binary prec emax (Z.pos p) 0 _ 0) as [[mz ez] lz].
  change (xorb true false) with (negb (xorb false false)).
  rewrite binary_round_aux_negb.
  by destruct (binary_round_aux prec emax (xorb false false) mz ez lz).
Qed.

(** *** All 16-bit samples, through the floats *)

Lemma nonneg_shorts_ok : all_in_block 15 0 short_ok = true.
Proof. vm_compute. reflexivity. Qed.

Lemma min_short_ok : short_ok (-32768) = true.
Proof. vm_compute. reflexivity. Qed.

Lemma short_ok_spec (k : Z) :
  short_ok k = true →
  ∃ r k', int_truediv k 32767 = Ok r ∧ scale r = Ok k
          ∧ scale (fmul r zero_point_two) = Ok k'
          ∧ (k' = Z.quot k 5 ∨ (Z.rem k 5 = 0 ∧ k' = Z.quot k 5 - Z.sgn k))%Z.
Proof.
  unfold short_ok, fifth_or_below. intros Hok.
  destruct (int_truediv k 32767) as [r|]; [|done].
  destruct (scale r) as [k1|] eqn:E1; [|done].
  destruct (scale (fmul r zero_point_two)) as [k2|] eqn:E2; [|done].
  apply andb_true_iff in Hok as [Hk1 Hk2]. exists r, k2.
  apply Z.eqb_eq in Hk1 as ->. split_and!; [done..|].
  apply orb_true_iff in Hk2 as [Hk2|[H1 H2]%andb_true_iff]; [left|right]; lia.
Qed.

Lemma short_facts (k : Z) :
  (-32768 ≤ k ≤ 32767)%Z →
  ∃ r k', int_truediv k 32767 = Ok r ∧ scale r = Ok k
          ∧ scale (fmul r zero_point_two) = Ok k'
          ∧ (k' = Z.quot k 5 ∨ (Z.rem k 5 = 0 ∧ k' = Z.quot k 5 - Z.sgn k))%Z.
Proof.
  intros Hk.
  assert (∀ j, (0 ≤ j ≤ 32767)%Z → short_ok j = true) as Hpos.
  { intros j Hj. apply (all_in_block_spec 15 0 short_ok nonneg_shorts_ok).
    change (2 ^ Z.of_nat 15)%Z with 32768%Z. lia. }
  destruct k as [|p|p].
  - apply short_ok_spec, Hpos. lia.
  - apply short_ok_spec, Hpos. lia.
  - destruct (decide (Z.neg p = -32768)%Z) as [->|Hmin].
    { apply short_ok_spec, min_short_ok. }
    assert (0 ≤ Z.pos p ≤ 32767)%Z as Hp by lia.
    destruct (short_ok_spec (Z.pos p) (Hpos _ Hp)) as (r & k' & Hr & Hk1 & Hk2 & Hrel).
    exists (SFopp r), (- k')%Z. split_and!.
    + by rewrite int_truediv_neg, Hr.
    + by rewrite scale_opp, Hk1.
    + unfold zero_point_two in *. by rewrite fmul_opp, scale_opp, Hk2.
    + change (Z.neg p) with (- Z.pos p)%Z.
      rewrite Z.quot_opp_l, Z.rem_opp_l, Z.sgn_opp by lia. lia.
Qed.

(** Decoding any short and encoding the float again gives the short back. *)
Lemma reencode_short (k : Z) :
  (-32768 ≤ k ≤ 32767)%Z → ∃ r, int_truediv k 32767 = Ok r ∧ scale r = Ok k.
Proof.
  intros Hk. destruct (short_facts k Hk) as (r & k' & Hr & Hk1 & _). eauto.
Qed.

(** A big-endian host reads the two bytes in the other order. *)
Lemma decode_signed_big lo hi : decode_signed big [lo; hi] = decode_signed little [hi; lo].
Proof. reflexivity. Qed.

Lemma decode_signed_pair_range host lo hi :
  (-32768 ≤ decode_signed host [lo; hi] ≤ 32767)%Z.
Proof.
  destruct host; rewrite ?decode_signed_big, decode_signed_little; apply int16_of_range.
Qed.

Lemma le_split_int16_of lo hi : le_split 2 (int16_of lo hi) = [lo; hi].
Proof.
  rewrite le_split_mod. change (2 ^ (Z.of_nat 2 * 8))%Z with 65536%Z.
  assert (int16_of lo hi `mod` 65536 = le_combine [lo; hi])%Z as ->.
  { rewrite le_combine_2. unfold int16_of.
    pose proof (byte.unsigned_range lo). pose proof (byte.unsigned_range hi).
    change (2 ^ 8)%Z with 256%Z in *. case_decide.
    - apply Z.mod_small. lia.
    - rewrite <- (Z_mod_plus_full _ 1 65536).
      replace (byte.unsigned lo + 256 * byte.unsigned hi - 65536 + 1 * 65536)%Z
        with (byte.unsigned lo + 256 * byte.unsigned hi)%Z by lia.
      apply Z.mod_small. lia. }
  apply (split_le_combine [lo; hi]).
Qed.

Lemma encode_decode_pair host lo hi :
  encode_int host 2 (decode_signed host [lo; hi]) = [lo; hi].
Proof.
  destruct host; rewrite ?decode_signed_big, decode_signed_little; unfold encode_int;
    by rewrite le_split_int16_of.
Qed.

(** An even buffer is the concatenation of its two-byte chunks. *)
Lemma chunk_pair (b : list byte) (i : nat) :
  i < length b `div` 2 → ∃ lo hi, take 2 (drop (2 * i) b) = [lo; hi].
Proof.
  intros Hi. pose proof (Nat.div_mod_eq (length b) 2) as Hdm.
  destruct (lookup_lt_is_Some_2 b (2 * i) ltac:(lia)) as [lo Hlo].
  destruct (lookup_lt_is_Some_2 b (2 * i + 1) ltac:(lia)) as [hi Hhi].
  exists lo, hi. by apply take_drop_pair.
Qed.

Lemma concat_chunks (b : list byte) :
  length b `mod` 2 = 0 →
  concat ((λ i, take 2 (drop (2 * i) b)) <$> seq 0 (length b `div` 2)) = b.
Proof.
  intros Hmod. pose proof (Nat.div_mod_eq (length b) 2) as Hdm.
  assert (∃ n, n = length b `div` 2) as [n Hn] by eauto.
  rewrite <- Hn. assert (length b = 2 * n) as Hlen by lia. clear Hmod Hdm Hn.
  revert b Hlen. induction n as [|n IH]; intros b Hlen.
  - destruct b; [done|simpl in Hlen; lia].
  - destruct b as [|lo [|hi b]]; simpl in Hlen; try lia.
    change (seq 0 (S n)) with (0 :: seq 1 n).
    rewrite <- fmap_S_seq, fmap_cons, <- list_fmap_compose. cbn [concat].
    rewrite (list_fmap_ext _ (λ i, take 2 (drop (2 * i) b)) (seq 0 n)).
    + rewrite IH by lia. done.
    + intros _ i _. simpl.
      by replace (i + S (i + 0)) with (S (i + (i + 0))) by lia.
Qed.

Lemma payload_shorts_range host (b : list byte) :
  Forall (λ k, (-32768 ≤ k ≤ 32767)%Z) (payload_shorts host b).
Proof.
  unfold payload_shorts. apply Forall_fmap, Forall_forall.
  intros i Hi%elem_of_seq. unfold compose.
  destruct (chunk_pair b i ltac:(lia)) as (lo & hi & ->).
  apply decode_signed_pair_range.
Qed.

Lemma encode_payload_shorts host (b : list byte) :
  length b `mod` 2 = 0 → concat (encode_int host 2 <$> payload_shorts host b) = b.
Proof.
  intros Hmod. rewrite <- (concat_chunks b Hmod) at 2. f_equal.
  unfold payload_shorts. rewrite <- list_fmap_compose.
  apply list_fmap_ext. intros j i [Heq Hi]%lookup_seq. unfold compose.
  destruct (chunk_pair b i ltac:(lia)) as (lo & hi & ->).
  apply encode_decode_pair.
Qed.

Lemma length_payload_shorts host (b : list byte) :
  length (payload_shorts host b) = length b `div` 2.
Proof. unfold payload_shorts. by rewrite length_fmap, length_seq. Qed.

Lemma convert_to_samples_payload host (b : list byte) :
  length b `mod` 2 = 0 →
  convert_to_samples host b
  = res_map (λ k, int_truediv k MAX_SAMPLE_VALUE) (payload_shorts host b).
Proof.
  intros Hmod. rewrite convert_to_samples_unfold, decide_True by done.
  unfold payload_shorts. by rewrite res_map_fmap.
Qed.

(** What [convert_to_bytes] gives on floats whose scaled values are known. *)
Lemma convert_to_bytes_scaled host (samples : list float) (ints : list Z) :
  Forall2 (λ s k, scale s = Ok k) samples ints →
  Forall (λ k, (-32768 ≤ k ≤ 32767)%Z) ints →
  convert_to_bytes host samples = Ok (concat (encode_int host 2 <$> ints)).
Proof.
  intros Hscale Hrange. rewrite convert_to_bytes_unfold.
  apply res_map_Ok in Hscale. rewrite Hscale.
  apply forallb_in_range in Hrange. by rewrite Hrange.
Qed.

(** Every buffer of even length decodes. *)
Lemma convert_to_samples_even host (b : list byte) :
  length b `mod` 2 = 0 →
  ∃ samples,
    convert_to_samples host b = Ok samples
    ∧ Forall2 (λ k r, int_truediv k MAX_SAMPLE_VALUE = Ok r) (payload_shorts host b) samples.
Proof.
  intros Hmod. rewrite convert_to_samples_payload by done.
  destruct (res_map_all_Ok (λ k, int_truediv k MAX_SAMPLE_VALUE) (payload_shorts host b))
    as [samples Hs].
  - eapply Forall_impl; [apply payload_shorts_range|].
    intros k Hk. destruct (reencode_short k Hk) as (r & Hr & _). eauto.
  - exists samples. split; [done|]. by apply res_map_Ok.
Qed.

(** The shorts of an encoded payload are the integers that were encoded. *)
Lemma payload_shorts_encode host (ints : list Z) :
  Forall (λ k, (-32768 ≤ k ≤ 32767)%Z) ints →
  payload_shorts host (concat (encode_int host 2 <$> ints)) = ints.
Proof.
  intros Hrange. unfold payload_shorts.
  rewrite length_concat_chunks by apply length_encode_int.
  rewrite (Nat.mul_comm 2), Nat.div_mul by lia.
  apply list_eq. intros i. rewrite list_lookup_fmap.
  destruct (decide (i < length ints)) as [Hi|Hi].
  - rewrite lookup_seq_lt by done. cbn [fmap option_fmap option_map].
    rewrite chunk_lookup by apply length_encode_int.
    destruct (lookup_lt_is_Some_2 ints i Hi) as [k Hk].
    rewrite Nat.add_0_l, Hk. cbn [fmap option_fmap option_map default]. f_equal.
    apply decode_encode_short. by apply (Forall_lookup_1 _ _ _ _ Hrange Hk).
  - rewrite lookup_seq_ge by lia. symmetry. apply lookup_ge_None. lia.
Qed.

End CodecFacts2.

Module CodecExtras.
Import PyFloat Struct Wave Reference Checks Checks2 ResFacts StructFacts FloatFacts
  TruedivFacts CodecFacts CodecFacts2.

(** X4.  [convert_to_bytes] returns bytes exactly when every product
    [sample * 32767] is a finite float whose truncation lies in
    [-32768 .. 32767]; it then returns two bytes per sample.  In every
    other case it raises and returns nothing. *)
Theorem convert_to_bytes_succeeds_iff host (samples : list float) :
  ((∃ sample_bytes, convert_to_bytes host samples = Ok sample_bytes)
   ↔ Forall (λ s, is_finite (fmul s MAX_SAMPLE_VALUE_f) = true
                  ∧ (-32768 ≤ round_toward_zero (SF2Q (fmul s MAX_SAMPLE_VALUE_f)) ≤ 32767)%Z)
            samples)
  ∧ (∀ sample_bytes, convert_to_bytes host samples = Ok sample_bytes →
       length sample_bytes = 2 * length samples).
Proof.
  rewrite convert_to_bytes_unfold. split; [split|].
  - intros [sample_bytes Hb].
    destruct (res_map scale samples) as [ints|] eqn:Hm; [|done].
    destruct (forallb (in_range (-32768) 32767) ints) eqn:Hr; [|done].
    apply forallb_in_range in Hr. apply res_map_Ok in Hm. clear Hb.
    induction Hm as [|s k samples ints Hk _ IH]; [constructor|].
    inversion Hr as [|? ? Hkr Hr']; subst.
    destruct (scale_Ok_inv s k Hk) as [Hfin ->]. constructor; [done|by apply IH].
  - intros Hall.
    rewrite (res_map_total scale
               (λ s, round_toward_zero (SF2Q (fmul s MAX_SAMPLE_VALUE_f)))).
    + assert (forallb (in_range (-32768) 32767)
                ((λ s, round_toward_zero (SF2Q (fmul s MAX_SAMPLE_VALUE_f))) <$> samples)
              = true) as ->; [|by eauto].
      apply forallb_in_range, Forall_fmap. eapply Forall_impl; [exact Hall|].
      by intros s [_ Hs].
    + eapply Forall_impl; [exact Hall|]. intros s [Hs _]. by apply scale_finite.
  - intros sample_bytes Hb.
    destruct (res_map scale samples) as [ints|] eqn:Hm; [|done].
    destruct (forallb (in_range (-32768) 32767) ints); [|done].
    injection Hb as <-. rewrite length_concat_chunks by apply length_encode_int.
    by rewrite (res_map_length _ _ _ Hm).
Qed.

(** X5.  The samples are all converted to integers before any is packed, so
    the first sample whose product with 32767 is not a finite float
    decides the exception: [ValueError] for NaN, [OverflowError] for an
    infinity, even when an earlier sample is out of the 16-bit range
    (whose [struct.error] is then never raised). *)
Theorem convert_to_bytes_first_failure host (pre post : list float) (s : float) :
  Forall (λ x, is_finite (fmul x MAX_SAMPLE_VALUE_f) = true) pre →
  is_finite (fmul s MAX_SAMPLE_VALUE_f) = false →
  convert_to_bytes host (pre ++ s :: post)
  = Raise (match fmul s MAX_SAMPLE_VALUE_f with
           | S754_nan => ValueError
           | _ => OverflowError
           end).
Proof.
  intros Hpre Hs. rewrite convert_to_bytes_unfold.
  erewrite res_map_first_raise; [done| |by apply scale_not_finite].
  eapply Forall_impl; [exact Hpre|]. intros x Hx. rewrite scale_finite by done. eauto.
Qed.

Lemma convert_to_bytes_first_failure_witness :
  convert_to_bytes little ([two] ++ S754_nan :: [one]) = Raise ValueError
  ∧ convert_to_bytes little ([two] ++ S754_infinity true :: [one]) = Raise OverflowError.
Proof.
  split.
  - apply (convert_to_bytes_first_failure little [two] [one] S754_nan).
    + repeat constructor.
    + reflexivity.
  - apply (convert_to_bytes_first_failure little [two] [one] (S754_infinity true)).
    + repeat constructor.
    + reflexivity.
Defined.

(** X6.  Decoding is inverted exactly by encoding: every buffer of even
    length decodes to floats, one per two bytes, that [convert_to_bytes]
    turns back into the very same bytes, on any host. *)
Theorem decode_then_encode_identity host (sample_bytes : list byte) :
  length sample_bytes `mod` 2 = 0 →
  ∃ samples,
    convert_to_samples host sample_bytes = Ok samples
    ∧ length samples = length sample_bytes `div` 2
    ∧ convert_to_bytes host samples = Ok sample_bytes.
Proof.
  intros Hmod. rewrite convert_to_samples_payload by done.
  pose proof (payload_shorts_range host sample_bytes) as Hrange.
  rewrite <- (length_payload_shorts host sample_bytes).
  pose proof (encode_payload_shorts host sample_bytes Hmod) as Henc.
  generalize dependent (payload_shorts host sample_bytes). intros ks Hrange Henc.
  assert (∃ samples, Forall2 (λ k r, int_truediv k MAX_SAMPLE_VALUE = Ok r) ks samples
                     ∧ Forall2 (λ r k, scale r = Ok k) samples ks)
    as (samples & Hdiv & Hscale).
  { clear Henc. induction Hrange as [|k ks Hk _ (samples & H1 & H2)].
    - exists []. split; constructor.
    - destruct (reencode_short k Hk) as (r & Hr & Hs).
      exists (r :: samples). split; by constructor. }
  exists samples. split_and!.
  - by apply res_map_Ok.
  - by rewrite (Forall2_length _ _ _ Hscale).
  - rewrite <- Henc. by apply convert_to_bytes_scaled.
Qed.

Lemma decode_then_encode_identity_witness :
  ∃ samples,
    convert_to_samples big [Byte.x80; Byte.x00; Byte.x7f; Byte.xff] = Ok samples
    ∧ length samples = 2
    ∧ convert_to_bytes big samples = Ok [Byte.x80; Byte.x00; Byte.x7f; Byte.xff].
Proof.
  apply (decode_then_encode_identity big [Byte.x80; Byte.x00; Byte.x7f; Byte.xff]).
  reflexivity.
Defined.

End CodecExtras.

(** ** Whole files: [encode_wave_data], [decode_wave_data] and [main] *)

Module FileFacts.
Import PyFloat Struct Wave Reference Checks Checks2 Decode ResFacts StructFacts
  TruedivFacts ScaleFacts CodecFacts CodecFacts2 HeaderClaims.

Lemma decode_wave_data_unfold host (file_bytes : list byte) :
  decode_wave_data host file_bytes
  = if decide (44 ≤ length file_bytes)
    then samples ← convert_to_samples host (drop 44 file_bytes) ;;;
         Ok (header_at file_bytes, samples)
    else Raise (struct_error (BadBufferSize 44)).
Proof.
  unfold decode_wave_data, unpack_from_buffer. rewrite calcsize_headers.
  case_decide; reflexivity.
Qed.

(** The header fields only depend on the first 44 bytes. *)
Lemma header_at_app (h payload : list byte) :
  length h = 44 → header_at (h ++ payload) = header_at h.
Proof.
  intros Hlen. unfold header_at.
  rewrite !drop_app_le, !take_app_le by (rewrite ?length_drop; lia). done.
Qed.

Lemma le_combine_split_4 (z : Z) :
  (0 ≤ z ≤ 4294967295)%Z → le_combine (le_split 4 z) = z.
Proof.
  intros Hz. rewrite le_combine_split. apply Z.mod_small.
  change (2 ^ (Z.of_nat 4 * 8))%Z with 4294967296%Z. lia.
Qed.

(** The 44 header bytes read back, field by field, as the values packed. *)
Lemma header_bytes_read (fs ds : Z) :
  (0 ≤ fs ≤ 4294967295)%Z → (0 ≤ ds ≤ 4294967295)%Z →
  let hb := bytes_of_string "RIFF" ++ le_split 4 fs
            ++ bytes_of_string "WAVEfmt " ++ le_split 4 16
            ++ le_split 2 1 ++ le_split 2 2 ++ le_split 4 44100
            ++ le_split 4 88200 ++ le_split 2 2 ++ le_split 2 16
            ++ bytes_of_string "data" ++ le_split 4 ds in
  length hb = 44
  ∧ header_at hb
    = {| riff := bytes_of_string "RIFF"; file_size := fs;
         wave := bytes_of_string "WAVE"; fmt := bytes_of_string "fmt ";
         fmt_size := 16; wav_type := 1; num_channels := 2;
         sampling_freq := 44100; bytes_per_second := 88200; block_align := 2;
         sample_bits := 16; data := bytes_of_string "data"; data_size := ds |}.
Proof.
  intros Efs%le_combine_split_4 Eds%le_combine_split_4. revert Efs Eds.
  destruct (le_split_4 fs) as (a1 & a2 & a3 & a4 & ->).
  destruct (le_split_4 ds) as (b1 & b2 & b3 & b4 & ->).
  intros <- <-. split; reflexivity.
Qed.

(** The header bytes [encode_wave_data] writes read back as the header
    [create_headers] made. *)
Lemma encode_wave_data_Ok host (samples : list float) (hb db : list byte) :
  encode_wave_data host samples = Ok (hb, db) →
  (36 + Z.of_nat (length samples) * 2 ≤ 4294967295)%Z
  ∧ convert_to_bytes host samples = Ok db
  ∧ length hb = 44
  ∧ header_at hb = create_headers host (Z.of_nat (length samples)).
Proof.
  unfold encode_wave_data. rewrite pack_headers.
  destruct (in_range 0 4294967295 (36 + Z.of_nat (length samples) * 2)) eqn:Hfs;
    [|discriminate].
  destruct (in_range 0 4294967295 (Z.of_nat (length samples) * 2)) eqn:Hds;
    [|discriminate].
  apply in_range_spec in Hfs, Hds.
  cbn [res_bind]. destruct (convert_to_bytes host samples) as [db'|]; [|discriminate].
  cbn [res_bind].
  pose proof (header_bytes_read _ _ Hfs Hds) as Hread. cbv zeta in Hread.
  revert Hread. generalize (bytes_of_string "RIFF" ++ le_split 4 (36 + Z.of_nat (length samples) * 2)
            ++ bytes_of_string "WAVEfmt " ++ le_split 4 16
            ++ le_split 2 1 ++ le_split 2 2 ++ le_split 4 44100
            ++ le_split 4 88200 ++ le_split 2 2 ++ le_split 2 16
            ++ bytes_of_string "data" ++ le_split 4 (Z.of_nat (length samples) * 2)).
  intros hb' [Hlen Hat] [= <- <-].
  split; [lia|]. split; [done|]. split; [done|].
  rewrite Hat. by destruct host.
Qed.

Lemma encode_wave_data_fits host (samples : list float) (db : list byte) :
  (36 + Z.of_nat (length samples) * 2 ≤ 4294967295)%Z →
  convert_to_bytes host samples = Ok db →
  ∃ hb, encode_wave_data host samples = Ok (hb, db).
Proof.
  intros Hfit Hdb. unfold encode_wave_data. rewrite pack_headers.
  rewrite (proj2 (in_range_spec _ _ _)) by lia.
  rewrite (proj2 (in_range_spec _ _ _)) by lia.
  cbn [res_bind]. rewrite Hdb. cbn [res_bind]. eauto.
Qed.

(** Encoding then decoding samples of magnitude at most 1. *)
Lemma roundtrip_samples host (samples : list float) :
  Forall (λ s, valid s = true ∧ is_finite s = true ∧ (Qabs (SF2Q s) <= 1)%Q) samples →
  ∃ ints decoded,
    convert_to_bytes host samples = Ok (concat (encode_int host 2 <$> ints))
    ∧ convert_to_samples host (concat (encode_int host 2 <$> ints)) = Ok decoded
    ∧ Forall2 (λ s r, is_finite r = true ∧ (Qabs (SF2Q r - SF2Q s) <= 1 # 32767)%Q)
              samples decoded.
Proof.
  intros Hall.
  assert (∃ ints decoded,
            Forall2 (λ s k, scale s = Ok k) samples ints
            ∧ Forall (λ k, (-32768 ≤ k ≤ 32767)%Z) ints
            ∧ Forall2 (λ k r, int_truediv k MAX_SAMPLE_VALUE = Ok r) ints decoded
            ∧ Forall2 (λ s r, is_finite r = true
                              ∧ (Qabs (SF2Q r - SF2Q s) <= 1 # 32767)%Q) samples decoded)
    as (ints & decoded & Hscale & Hrange & Hdiv & Hclose).
  { induction Hall as [|s samples (Hv & Hf & Hle) _ (ints & decoded & H1 & H2 & H3 & H4)].
    - exists [], []. split_and!; constructor.
    - destruct (roundtrip_sample s Hv Hf Hle) as (k & r & Hk & Hkr & Hr & Hrf & Hq).
      exists (k :: ints), (r :: decoded).
      split_and!; constructor; try done. lia. }
  exists ints, decoded. split_and!; [|  |done].
  - by apply convert_to_bytes_scaled.
  - rewrite convert_to_samples_payload.
    + rewrite payload_shorts_encode by done. by apply res_map_Ok.
    + rewrite length_concat_chunks by apply length_encode_int.
      rewrite Nat.mul_comm. apply Nat.Div0.mod_mul.
Qed.

(** A fifth of every short, through the floats. *)
Lemma quieter_short (k : Z) :
  (-32768 ≤ k ≤ 32767)%Z →
  ∃ r k', int_truediv k MAX_SAMPLE_VALUE = Ok r
          ∧ scale (fmul r zero_point_two) = Ok k'
          ∧ (k' = Z.quot k 5 ∨ (Z.rem k 5 = 0 ∧ k' = Z.quot k 5 - Z.sgn k))%Z.
Proof.
  intros Hk. destruct (short_facts k Hk) as (r & k' & Hr & _ & Hk' & Hrel).
  by exists r, k'.
Qed.

Lemma quieter_range (k k' : Z) :
  (-32768 ≤ k ≤ 32767)%Z →
  (k' = Z.quot k 5 ∨ (Z.rem k 5 = 0 ∧ k' = Z.quot k 5 - Z.sgn k))%Z →
  (-32768 ≤ k' ≤ 32767)%Z.
Proof.
  intros Hk Hk'. pose proof (Z.quot_rem' k 5) as Hqr.
  pose proof (Z.rem_bound_abs k 5 ltac:(lia)) as Habs.
  pose proof (Z.rem_sign_mul k 5 ltac:(lia)) as Hsign.
  nia.
Qed.

End FileFacts.

Module FileExtras.
Import PyFloat Struct Wave Reference Checks Checks2 Decode ResFacts StructFacts
  TruedivFacts ScaleFacts CodecFacts CodecFacts2 FileFacts.

(** X7.  Whenever [encode_wave_data] returns, the header is 44 bytes long, the
    data has two bytes per sample, the header bytes read back field by
    field as the header [create_headers] made for that number of samples,
    and the two size fields agree with the bytes written: [data_size] (at
    offset 40) is the length of the data and [file_size] (at offset 4) is
    the length of header plus data, minus 8. *)
Theorem encode_wave_data_sizes host (samples : list float) (hb db : list byte) :
  encode_wave_data host samples = Ok (hb, db) →
  length hb = 44
  ∧ length db = 2 * length samples
  ∧ header_at hb = create_headers host (Z.of_nat (length samples))
  ∧ data_size (header_at hb) = Z.of_nat (length db)
  ∧ file_size (header_at hb) = (Z.of_nat (length (hb ++ db)) - 8)%Z.
Proof.
  intros (Hfit & Hdb & Hlen & Hat)%encode_wave_data_Ok.
  assert (length db = 2 * length samples) as Hdblen.
  { rewrite convert_to_bytes_unfold in Hdb.
    destruct (res_map scale samples) as [ints|] eqn:Hm; [|done].
    destruct (forallb (in_range (-32768) 32767) ints); [|done].
    injection Hdb as <-. rewrite length_concat_chunks by apply length_encode_int.
    by rewrite (res_map_length _ _ _ Hm). }
  split_and!; [done..| |]; rewrite Hat.
  - rewrite Hdblen. cbn [create_headers data_size]. change SAMPLE_WIDTH with 2%Z. lia.
  - rewrite length_app, Hlen, Hdblen. cbn [create_headers file_size].
    rewrite HeaderClaims.calcsize_headers. change SAMPLE_WIDTH with 2%Z. lia.
Qed.

Lemma encode_wave_data_sizes_witness :
  ∃ hb db,
    encode_wave_data little [one; minus_one; one] = Ok (hb, db)
    ∧ length hb = 44
    ∧ length db = 2 * 3
    ∧ header_at hb = create_headers little 3
    ∧ data_size (header_at hb) = Z.of_nat (length db)
    ∧ file_size (header_at hb) = (Z.of_nat (length (hb ++ db)) - 8)%Z.
Proof.
  eexists _, _. split; [reflexivity|].
  apply (encode_wave_data_sizes little [one; minus_one; one]). reflexivity.
Defined.

(** X8.  [encode_wave_data] returns exactly when the sizes fit the unsigned
    32-bit header fields ([36 + 2 * len(samples) <= 4294967295]) and
    [convert_to_bytes] returns on the samples; the data bytes are then
    those of [convert_to_bytes]. *)
Theorem encode_wave_data_succeeds_iff host (samples : list float) :
  ((∃ hb db, encode_wave_data host samples = Ok (hb, db))
   ↔ (36 + Z.of_nat (length samples) * 2 ≤ 4294967295)%Z
     ∧ ∃ db, convert_to_bytes host samples = Ok db)
  ∧ (∀ hb db, encode_wave_data host samples = Ok (hb, db) →
       convert_to_bytes host samples = Ok db).
Proof.
  split; [split|].
  - intros (hb & db & (Hfit & Hdb & _)%encode_wave_data_Ok). eauto.
  - intros (Hfit & db & Hdb).
    destruct (encode_wave_data_fits host samples db Hfit Hdb) as [hb Hhb]. eauto.
  - by intros hb db (_ & Hdb & _)%encode_wave_data_Ok.
Qed.

(** X9.  [decode_wave_data] raises [struct.error] on a file shorter than the
    44-byte header (from [unpack_from]) and on a file whose bytes after
    the header are odd in number (from the [unpack] of the samples, which
    expects one byte less); on every other file it returns the header
    fields read at their offsets and one sample per two bytes after the
    header. *)
Theorem decode_wave_data_outcomes host (file_bytes : list byte) :
  (length file_bytes < 44 →
   decode_wave_data host file_bytes = Raise (struct_error (BadBufferSize 44)))
  ∧ (44 ≤ length file_bytes → (length file_bytes - 44) `mod` 2 ≠ 0 →
     decode_wave_data host file_bytes
     = Raise (struct_error (BadBufferSize (length file_bytes - 45))))
  ∧ (44 ≤ length file_bytes → (length file_bytes - 44) `mod` 2 = 0 →
     ∃ samples,
       decode_wave_data host file_bytes = Ok (header_at file_bytes, samples)
       ∧ length samples = (length file_bytes - 44) `div` 2).
Proof.
  rewrite decode_wave_data_unfold. split_and!.
  - intros Hshort. by rewrite decide_False by lia.
  - intros Hlong Hodd. rewrite decide_True by lia.
    rewrite convert_to_samples_unfold, length_drop, decide_False by done.
    cbn [res_bind]. do 3 f_equal.
    pose proof (Nat.div_mod_eq (length file_bytes - 44) 2).
    pose proof (Nat.mod_upper_bound (length file_bytes - 44) 2). lia.
  - intros Hlong Heven. rewrite decide_True by lia.
    destruct (convert_to_samples_even host (drop 44 file_bytes)) as (samples & -> & Hs).
    { by rewrite length_drop. }
    exists samples. split; [done|].
    by rewrite <- (Forall2_length _ _ _ Hs), length_payload_shorts, length_drop.
Qed.

Lemma decode_wave_data_outcomes_witness :
  decode_wave_data little (replicate 43 Byte.x00) = Raise (struct_error (BadBufferSize 44))
  ∧ decode_wave_data little (replicate 47 Byte.x00) = Raise (struct_error (BadBufferSize 2))
  ∧ ∃ samples,
      decode_wave_data little (replicate 48 Byte.xff)
      = Ok (header_at (replicate 48 Byte.xff), samples)
      ∧ length samples = 2.
Proof.
  split_and!.
  - apply (decode_wave_data_outcomes little (replicate 43 Byte.x00)). simpl. lia.
  - apply (decode_wave_data_outcomes little (replicate 47 Byte.x00)); simpl; lia.
  - apply (decode_wave_data_outcomes little (replicate 48 Byte.xff)); simpl; lia.
Defined.

(** X10.  [decode_wave_data] validates nothing in the header: whatever the
    first 44 bytes are (magic tags, declared sizes, number of channels),
    the samples are those of all the bytes after them, so that the
    declared [data_size] plays no role, and the header returned is the 13
    fields of the first 44 bytes. *)
Theorem decode_wave_data_ignores_header host (h payload : list byte) :
  length h = 44 →
  decode_wave_data host (h ++ payload)
  = (samples ← convert_to_samples host payload ;;; Ok (header_at h, samples)).
Proof.
  intros Hlen. rewrite decode_wave_data_unfold.
  rewrite decide_True by (rewrite length_app; lia).
  rewrite drop_app_length' by done. by rewrite header_at_app.
Qed.

Lemma decode_wave_data_ignores_header_witness :
  decode_wave_data little (replicate 44 Byte.x00 ++ [Byte.xff; Byte.x7f])
  = (samples ← convert_to_samples little [Byte.xff; Byte.x7f] ;;;
     Ok (header_at (replicate 44 Byte.x00), samples)).
Proof.
  apply (decode_wave_data_ignores_header little (replicate 44 Byte.x00)). reflexivity.
Defined.

(** X11.  A file written by [encode_wave_data] reads back: for samples of
    magnitude at most 1 whose count fits the 32-bit size fields, encoding
    succeeds, and decoding the header bytes followed by the data bytes
    returns the header [create_headers] made and samples within one
    quantization step [1/32767] of the originals. *)
Theorem encode_decode_file host (samples : list float) :
  Forall (λ s, valid s = true ∧ is_finite s = true ∧ (Qabs (SF2Q s) <= 1)%Q) samples →
  (36 + Z.of_nat (length samples) * 2 ≤ 4294967295)%Z →
  ∃ hb db decoded,
    encode_wave_data host samples = Ok (hb, db)
    ∧ decode_wave_data host (hb ++ db)
      = Ok (create_headers host (Z.of_nat (length samples)), decoded)
    ∧ Forall2 (λ s r, is_finite r = true ∧ (Qabs (SF2Q r - SF2Q s) <= 1 # 32767)%Q)
              samples decoded.
Proof.
  intros Hall Hfit.
  destruct (roundtrip_samples host samples Hall) as (ints & decoded & Henc & Hdec & Hclose).
  destruct (encode_wave_data_fits host samples _ Hfit Henc) as [hb Hhb].
  exists hb, (concat (encode_int host 2 <$> ints)), decoded.
  split; [done|]. split; [|done].
  destruct (encode_wave_data_Ok _ _ _ _ Hhb) as (_ & _ & Hlen & Hat).
  rewrite decode_wave_data_unfold.
  rewrite decide_True by (rewrite length_app; lia).
  rewrite drop_app_length' by done. rewrite Hdec. cbn [res_bind].
  by rewrite header_at_app, Hat.
Qed.

Lemma encode_decode_file_witness :
  ∃ hb db decoded,
    encode_wave_data little [one; minus_one] = Ok (hb, db)
    ∧ decode_wave_data little (hb ++ db) = Ok (create_headers little 2, decoded)
    ∧ Forall2 (λ s r, is_finite r = true ∧ (Qabs (SF2Q r - SF2Q s) <= 1 # 32767)%Q)
              [one; minus_one] decoded.
Proof.
  apply (encode_decode_file little [one; minus_one]).
  - repeat constructor; vm_compute; congruence.
  - simpl. lia.
Defined.

(** X12.  The volume change of [main] (decode, multiply every sample by
    [0.2], encode): on a file of at least 44 bytes with an even number of
    bytes after the header, and small enough for the 32-bit size fields,
    it succeeds; the header written is a fresh one that depends only on
    the number of samples (the header read is dropped), the data keeps
    its length, and every 16-bit sample [k] becomes [k / 5] rounded toward
    zero, or one unit nearer to zero than that when [k] is a multiple of
    5 (the float [0.2 * (k / 32767) * 32767] then falls just below the
    integer). *)
Theorem main_volume_change host (file_bytes : list byte) :
  44 ≤ length file_bytes → (length file_bytes - 44) `mod` 2 = 0 →
  (Z.of_nat (length file_bytes) - 8 ≤ 4294967295)%Z →
  ∃ hb db,
    main_stravinsky_mod host file_bytes = Ok (hb, db)
    ∧ header_at hb = create_headers host (Z.of_nat ((length file_bytes - 44) `div` 2))
    ∧ length db = length file_bytes - 44
    ∧ Forall2 (λ k k', k' = Z.quot k 5 ∨ (Z.rem k 5 = 0 ∧ k' = Z.quot k 5 - Z.sgn k))%Z
              (payload_shorts host (drop 44 file_bytes)) (payload_shorts host db).
Proof.
  intros Hlong Heven Hfit.
  pose proof (Nat.div_mod_eq (length file_bytes - 44) 2) as Hdm.
  unfold main_stravinsky_mod. rewrite decode_wave_data_unfold, decide_True by done.
  destruct (convert_to_samples_even host (drop 44 file_bytes)) as (samples & -> & Hs).
  { by rewrite length_drop. }
  cbn [res_bind snd].
  pose proof (payload_shorts_range host (drop 44 file_bytes)) as Hrange.
  pose proof (length_payload_shorts host (drop 44 file_bytes)) as Hcount.
  rewrite length_drop in Hcount.
  revert Hs Hrange Hcount. generalize (payload_shorts host (drop 44 file_bytes)).
  intros ks Hs Hrange Hcount.
  assert (∃ ks', Forall2 (λ s k', scale s = Ok k')
                         ((λ s, fmul s zero_point_two) <$> samples) ks'
                 ∧ Forall (λ k', (-32768 ≤ k' ≤ 32767)%Z) ks'
                 ∧ Forall2 (λ k k', k' = Z.quot k 5
                                    ∨ (Z.rem k 5 = 0 ∧ k' = Z.quot k 5 - Z.sgn k))%Z ks ks')
    as (ks' & Hscale & Hrange' & Hrel).
  { clear Hcount. induction Hs as [|k r ks samples Hr _ IH].
    - exists []. split_and!; constructor.
    - inversion Hrange as [|? ? Hk Hrange']; subst.
      destruct (IH Hrange') as (ks' & H1 & H2 & H3).
      destruct (quieter_short k Hk) as (r' & k' & Hr' & Hk' & Hrel).
      assert (r' = r) as -> by congruence.
      exists (k' :: ks'). rewrite fmap_cons.
      split_and!; constructor; try done. by apply (quieter_range k). }
  pose proof (convert_to_bytes_scaled host _ _ Hscale Hrange') as Hdb.
  pose proof (Forall2_length _ _ _ Hs) as Hlen1.
  pose proof (Forall2_length _ _ _ Hrel) as Hlen2.
  assert (36 + Z.of_nat (length ((λ s, fmul s zero_point_two) <$> samples)) * 2
          ≤ 4294967295)%Z as Hfit' by (rewrite length_fmap; lia).
  destruct (encode_wave_data_fits host _ _ Hfit' Hdb) as [hb Hhb].
  exists hb, (concat (encode_int host 2 <$> ks')). split; [done|].
  destruct (encode_wave_data_Ok _ _ _ _ Hhb) as (_ & _ & _ & Hat).
  rewrite length_fmap in Hat. split_and!.
  - rewrite Hat. do 2 f_equal. lia.
  - rewrite length_concat_chunks by apply length_encode_int. lia.
  - by rewrite payload_shorts_encode.
Qed.

Lemma main_volume_change_witness :
  ∃ hb db,
    main_stravinsky_mod little
      (replicate 44 Byte.x00 ++ [Byte.xff; Byte.x7f; Byte.x05; Byte.x00])
    = Ok (hb, db)
    ∧ header_at hb = create_headers little (Z.of_nat ((48 - 44) `div` 2))
    ∧ length db = 48 - 44
    ∧ Forall2 (λ k k', k' = Z.quot k 5 ∨ (Z.rem k 5 = 0 ∧ k' = Z.quot k 5 - Z.sgn k))%Z
              (payload_shorts little
                 (drop 44 (replicate 44 Byte.x00 ++ [Byte.xff; Byte.x7f; Byte.x05; Byte.x00])))
              (payload_shorts little db).
Proof.
  apply (main_volume_change little
           (replicate 44 Byte.x00 ++ [Byte.xff; Byte.x7f; Byte.x05; Byte.x00])).
  - simpl. lia.
  - reflexivity.
  - simpl. lia.
Defined.

End FileExtras.

(** ** The sine generator on degenerate durations *)

Module SineExtras.
Import PyFloat Wave Checks ResFacts FloatFacts ShapeFacts.
Local Open Scope Z_scope.

(** X13.  [sine_gen] evaluates [int(SAMPLING_FREQ * duration_seconds)] before
    anything else: when that product is NaN the generator raises
    [ValueError], when it is infinite it raises [OverflowError], and when
    it is finite for a duration that is zero or negative the generator
    yields nothing at all (the count is truncated toward zero and
    [range] of a non-positive count is empty).  In all three cases [sin]
    is never called, whatever the frequency and amplitude. *)
Theorem sine_gen_degenerate (sin : float → float) (freq amplitude duration_seconds : float) :
  let span := fmul SAMPLING_FREQ_f duration_seconds in
  (is_finite span = false →
   sine_gen sin freq amplitude duration_seconds
   = Raise (match span with S754_nan => ValueError | _ => OverflowError end))
  ∧ (is_finite span = true → (SF2Q duration_seconds <= 0)%Q →
     sine_gen sin freq amplitude duration_seconds = Ok []).
Proof.
  intros span.
  assert (sine_gen sin freq amplitude duration_seconds
          = res_bind (int_of_float span)
              (λ n, res_map (λ i : nat,
                               x ← angle freq (Z.of_nat i) ;;;
                               y ← math_sin sin x ;;;
                               Ok (fmul amplitude y))
                            (Channels.range n))) as -> by reflexivity.
  split.
  - intros Hinf. by destruct span.
  - intros Hfin Hle.
    assert (∃ n, int_of_float span = Ok n ∧ n ≤ 0) as (n & -> & Hn).
    { pose proof (fmul_sign SAMPLING_FREQ_f duration_seconds) as Hsign. fold span in Hsign.
      destruct span as [s|s| |s m e] eqn:Hspan; try done.
      - exists 0. done.
      - assert (s = true) as ->.
        { unfold SAMPLING_FREQ_f in Hsign.
          destruct duration_seconds as [sd|sd| |sd md ed]; try discriminate Hspan.
          destruct sd; [done|]. exfalso. cbn [SF2Q] in Hle.
          pose proof (Qpow2_pos ed).
          assert (0 < inject_Z (Z.pos md) * Qpower 2 ed)%Q by (by apply Qmult_lt_0_compat).
          lra. }
        exists (- Z.shiftl (Z.pos m) e). split; [done|].
        pose proof (proj2 (Z.shiftl_nonneg (Z.pos m) e) ltac:(lia)). lia. }
    cbn [res_bind]. unfold Channels.range.
    by replace (Z.to_nat n) with 0%nat by lia.
Qed.

Lemma sine_gen_degenerate_witness :
  sine_gen (λ x, x) one one S754_nan = Raise ValueError
  ∧ sine_gen (λ x, x) one one (S754_infinity false) = Raise OverflowError
  ∧ sine_gen (λ x, x) one one minus_one = Ok [].
Proof.
  split_and!.
  - apply (sine_gen_degenerate (λ x, x) one one S754_nan). reflexivity.
  - apply (sine_gen_degenerate (λ x, x) one one (S754_infinity false)). reflexivity.
  - apply (sine_gen_degenerate (λ x, x) one one minus_one).
    + reflexivity.
    + vm_compute. congruence.
Defined.

End SineExtras.
